(** * Countdown solver: a shallow embedding of [countdown_solver.py]

    The Python program enumerates the distinct sub-tuples of the input
    numbers, partitions each of them into pairs of smaller sub-tuples,
    combines the calculations of the two sides with [+], [-], [x], [/],
    and keeps the calculations closest to the target.

    Data is modelled as the program has it: Python integers are [Z],
    tuples of integers are [list Z], expressions are [string]s, the
    insertion-ordered dictionary [all_groups] is an association list (its
    iteration order is what [walk] observes), the set [unique_numbers] is a
    [gset], and a failing dictionary lookup ([KeyError]) is [None].
    Generators are finite and consumed at once, so they are lists.

    The file has four parts: the embedding, one definition per function of
    the source under the name of its class; the notions the statements
    use; the lemmas; and the properties of the specification, C1 to C10. *)

From Stdlib Require Import ZArith String Ascii DecimalString.
From stdpp Require Import base option list sorting gmap.

Local Open Scope Z_scope.
Local Open Scope string_scope.
Local Open Scope list_scope.
Set Warnings "-register-all,-clear-no-such-hyp".

(** ** Python builtins used by the program *)

(** [range(a, b)] on integers. *)
Definition range (a b : Z) : list Z :=
  (λ i : nat, a + Z.of_nat i) <$> seq 0 (Z.to_nat (b - a)).

(** [itertools.combinations(l, m)]: the length-[m] subsequences of [l], in
    lexicographic order of the chosen positions. *)
Fixpoint combinations {A} (l : list A) (m : nat) {struct l} : list (list A) :=
  match m with
  | O => [[]]
  | S m' =>
      match l with
      | [] => []
      | x :: xs => (cons x <$> combinations xs m') ++ combinations xs m
      end
  end.

(** [itertools.zip_longest(l, k)]: the shorter side is padded with [None]. *)
Fixpoint zip_longest {A B} (l : list A) (k : list B) : list (option A * option B) :=
  match l with
  | [] => (λ y, (None, Some y)) <$> k
  | x :: l' =>
      match k with
      | [] => (Some x, None) :: zip_longest l' []
      | y :: k' => (Some x, Some y) :: zip_longest l' k'
      end
  end.

(** [itertools.product(l, k)]: the rightmost index runs fastest. *)
Definition product {A B} (l : list A) (k : list B) : list (A * B) :=
  x ← l; (λ y, (x, y)) <$> k.

(** [f"{n}"] for an integer [n]. *)
Definition format_int (n : Z) : string := NilZero.string_of_int (Z.to_int n).

(** [sorted(l, reverse=True)] on integers. *)
Definition sorted_reverse (l : list Z) : list Z := merge_sort Z.ge l.

(** [functools.lru_cache()] around a function of two integers: the cached
    keys with their values, most recently used first, and how many calls
    reached the wrapped function. The default [maxsize] is 128; a full
    cache drops its least recently used key. *)
Record LruCache (V : Type) := mkLruCache {
  lru_entries : list ((Z * Z) * V);
  lru_misses : nat
}.
Arguments mkLruCache {V} _ _.
Arguments lru_entries {V} _.
Arguments lru_misses {V} _.

Definition lru_maxsize : nat := 128.

Definition lru_empty {V} : LruCache V := mkLruCache [] 0.

(** One call of the cached function. *)
Definition lru_call {V} (f : Z → Z → V) (c : LruCache V) (n k : Z) : LruCache V * V :=
  match list_find (λ e, e.1 = (n, k)) (lru_entries c) with
  | Some (i, (_, v)) =>
      (mkLruCache (((n, k), v) :: delete i (lru_entries c)) (lru_misses c), v)
  | None =>
      let v := f n k in
      (mkLruCache (take lru_maxsize (((n, k), v) :: lru_entries c)) (S (lru_misses c)), v)
  end.

(** A sequence of calls: the cache afterwards and the values returned. *)
Definition lru_calls {V} (f : Z → Z → V) (c : LruCache V) (calls : list (Z * Z))
    : LruCache V * list V :=
  foldl (λ '(c, out) '(n, k), let '(c', v) := lru_call f c n k in (c', out ++ [v]))
        (c, []) calls.

(** ** class Calculation *)

Record Calculation := mkCalculation {
  expr : string;
  result : Z;
  is_singleton : bool
}.

Global Instance Calculation_eq_dec : EqDecision Calculation.
Proof. solve_decision. Defined.

Module Calculation.

(** [Calculation.singleton(n)] *)
Definition singleton (n : Z) : Calculation :=
  mkCalculation (format_int n) n true.

(** [Calculation.operations(x, y)]: the admitted (result, symbol) pairs,
    in the order they are yielded. *)
Definition operations (x y : Z) : list (Z * string) :=
  [(x + y, "+")]
  ++ (if bool_decide (x > y) then [(x - y, "-")] else [])
  ++ (if bool_decide (y > 1) && bool_decide (x > 1) then [(x * y, "x")] else [])
  ++ (if bool_decide (y > 1) && bool_decide (x `mod` y = 0) then [(x `div` y, "/")] else []).

(** The text of an operand: parenthesised unless it is a bare number. *)
Definition operand (c : Calculation) : string :=
  if is_singleton c then expr c else ("(" ++ expr c ++ ")")%string.

(** [Calculation.generate(calca, calcb)] *)
Definition generate (calca calcb : Calculation) : list Calculation :=
  let '(calca, calcb) :=
    if bool_decide (result calca < result calcb) then (calcb, calca) else (calca, calcb) in
  (λ '(r, op), mkCalculation (operand calca ++ " " ++ op ++ " " ++ operand calcb)%string r false)
    <$> operations (result calca) (result calcb).

End Calculation.

(** ** class Group *)

(** A group holds references to the groups of its partitions; groups are
    never mutated after construction, so the references are modelled by
    the groups themselves. *)
Inductive Group := mkGroup {
  numbers : list Z;
  size : nat;
  partitions : list (Group * Group);
  calculations : list Calculation
}.

(** The dictionary [all_groups], in insertion order. *)
Abbreviation Index := (list (list Z * Group)).

(** [all_groups[key]]; [None] is [KeyError]. *)
Fixpoint index_get (all_groups : Index) (key : list Z) : option Group :=
  match all_groups with
  | [] => None
  | (k, g) :: rest => if decide (k = key) then Some g else index_get rest key
  end.

(** [key in all_groups] *)
Definition index_mem (all_groups : Index) (key : list Z) : bool :=
  bool_decide (is_Some (index_get all_groups key)).

Module Group.

(** The pairs [(m, l)] the loop of [halfbinom] runs over. *)
Definition halfbinom_steps (n k : Z) : list (Z * Z) :=
  zip (reverse (range (n + 1 - k) (n + 1))) (range 1 (k + 1)).

(** The loop of [halfbinom]: [prod = (prod*m)//l] from [prod = 1]. *)
Definition halfbinom_loop (steps : list (Z * Z)) : Z :=
  foldl (λ prod '(m, l), (prod * m) `div` l) 1 steps.

(** [Group.halfbinom(n, k)], the function under [lru_cache]. *)
Definition halfbinom (n k : Z) : option Z :=
  if bool_decide (n `mod` 2 = 1) then None
  else Some (halfbinom_loop (halfbinom_steps n k) `div` 2).

(** [Group.filtering(iterable, elements)]: [k] is the head of what is
    left of [elements], or Python's [None] once it is exhausted. *)
Fixpoint filtering (iterable elements : list Z) : list Z :=
  match iterable with
  | [] => []
  | n :: iterable' =>
      match elements with
      | k :: elems =>
          if bool_decide (n = k) then filtering iterable' elems
          else n :: filtering iterable' elements
      | [] => n :: filtering iterable' []
      end
  end.

(** The loop of [Group.paired_combinations] over what is left of
    [combinations(numbers, m)], with the running count [cnt]. *)
Fixpoint paired_loop (numbers : list Z) (limit : option Z) (cnt : Z)
    (combs : list (list Z)) : list (list Z * list Z) :=
  match combs with
  | [] => []
  | numbers1 :: combs' =>
      (numbers1, filtering numbers numbers1)
        :: (if bool_decide (Some cnt = limit) then []
            else paired_loop numbers limit (cnt + 1) combs')
  end.

(** [Group.paired_combinations(numbers, m, limit)] *)
Definition paired_combinations (numbers : list Z) (m : nat) (limit : option Z)
    : list (list Z * list Z) :=
  paired_loop numbers limit 1 (combinations numbers m).

(** The inner loop of [partition_into_unique_pairs]: the pairs yielded
    for one [m], and the set [unique_numbers] afterwards. *)
Fixpoint unique_loop (all_groups : Index) (unique_numbers : gset (list Z))
    (pairs : list (list Z * list Z)) : option (gset (list Z) * list (Group * Group)) :=
  match pairs with
  | [] => Some (unique_numbers, [])
  | (numbers1, numbers2) :: pairs' =>
      if bool_decide (numbers1 ∈ unique_numbers)
      then unique_loop all_groups unique_numbers pairs'
      else
        group1 ← index_get all_groups numbers1;
        group2 ← index_get all_groups numbers2;
        '(u, out) ← unique_loop all_groups ({[numbers1]} ∪ unique_numbers) pairs';
        Some (u, (group1, group2) :: out)
  end.

(** The outer loop over [zip_longest(range((size+1)//2, size), limits)].
    An [m] padded by [zip_longest] is [None], on which [combinations]
    raises. *)
Fixpoint partition_loop (all_groups : Index) (numbers : list Z)
    (unique_numbers : gset (list Z))
    (ms : list (option nat * option (option Z))) : option (list (Group * Group)) :=
  match ms with
  | [] => Some []
  | (None, _) :: _ => None
  | (Some m, limit) :: ms' =>
      '(u, out) ← unique_loop all_groups unique_numbers
                    (paired_combinations numbers m (mjoin limit));
      out' ← partition_loop all_groups numbers u ms';
      Some (out ++ out')
  end.

(** [Group.partition_into_unique_pairs(self, all_groups)] *)
Definition partition_into_unique_pairs (numbers : list Z) (size : nat)
    (all_groups : Index) : option (list (Group * Group)) :=
  if decide (size = 1%nat) then Some []
  else
    let limits := [halfbinom (Z.of_nat size) (Z.of_nat size `div` 2)] in
    partition_loop all_groups numbers ∅
      (zip_longest (seq ((size + 1) / 2) (size - (size + 1) / 2)) limits).

(** [Group.perform_calculations(self)]; [numbers[0]] on an empty tuple
    raises. *)
Definition perform_calculations (numbers : list Z) (size : nat)
    (partitions : list (Group * Group)) : option (list Calculation) :=
  if decide (size = 1%nat) then
    n ← head numbers; Some [Calculation.singleton n]
  else
    Some ('(group1, group2) ← partitions;
          '(calc1, calc2) ← product (calculations group1) (calculations group2);
          Calculation.generate calc1 calc2).

(** [Group(numbers, all_groups)] *)
Definition __init__ (numbers : list Z) (all_groups : Index) : option Group :=
  let size := length numbers in
  partitions ← partition_into_unique_pairs numbers size all_groups;
  calculations ← perform_calculations numbers size partitions;
  Some (mkGroup numbers size partitions calculations).

End Group.

(** ** class Solutions *)

Module Solutions.

(** The body of the two nested loops of [unique_groups], over the
    flattened sequence of candidate tuples. *)
Fixpoint groups_loop (all_groups : Index) (cands : list (list Z)) : option Index :=
  match cands with
  | [] => Some all_groups
  | numbers :: cands' =>
      if index_mem all_groups numbers then groups_loop all_groups cands'
      else
        g ← Group.__init__ numbers all_groups;
        groups_loop (all_groups ++ [(numbers, g)]) cands'
  end.

(** [Solutions.unique_groups(self)] *)
Definition unique_groups (all_numbers : list Z) : option Index :=
  let size := length all_numbers in
  groups_loop [] (m ← seq 1 size; combinations all_numbers m).

(** [Solutions.walk(self)] *)
Definition walk (all_groups : Index) : list Calculation :=
  '(_, group) ← all_groups; calculations group.

End Solutions.

(** ** The search of [countdown_solver] *)

(** One iteration of the loop over [solutions.walk()]; the state is
    [(smallest_difference, bestresults)]. *)
Definition search_step (target : Z) (st : Z * list Calculation) (calculation : Calculation)
    : Z * list Calculation :=
  let '(smallest_difference, bestresults) := st in
  let diff := Z.abs (result calculation - target) in
  if bool_decide (diff ≤ smallest_difference) then
    if bool_decide (diff < smallest_difference) then (diff, [calculation])
    else (smallest_difference, bestresults ++ [calculation])
  else (smallest_difference, bestresults).

(** The whole loop, from [smallest_difference = target], [bestresults = []]. *)
Definition search (target : Z) (calcs : list Calculation) : Z * list Calculation :=
  foldl (search_step target) (target, []) calcs.

(** [Solutions(numbers)] followed by the search, on an already ordered
    tuple. *)
Definition solve (target : Z) (numbers : list Z) : option (Z * list Calculation) :=
  all_groups ← Solutions.unique_groups numbers;
  Some (search target (Solutions.walk all_groups)).

(** [countdown_solver()] after the command line has been parsed into the
    target and the tuple of numbers (six numbers, or any number of them
    with the second version of [unsorted_numbers]): the numbers are sorted
    in descending order, and the pair handed to [output] is returned. *)
Definition countdown_solver (target : Z) (unsorted_numbers : list Z)
    : option (Z * list Calculation) :=
  solve target (sorted_reverse unsorted_numbers).

(** ** The command line and the printed text *)

(** The line feed that [print] writes after its argument. *)
Definition newline : string := String (ascii_of_nat 10) EmptyString.

(** [output(target, diff, results)]: the text written to the standard
    output. *)
Definition output (target diff : Z) (results : list Calculation) : string :=
  (newline ++ "The closest results differ from " ++ format_int target
     ++ " by " ++ format_int diff ++ ". They are:" ++ newline ++ newline
     ++ String.concat ""
          ((λ calculation,
              format_int (result calculation) ++ " = " ++ expr calculation ++ newline)
             <$> results))%string.

Section command_line.

(** [int(s)] on a string of the command line; [None] stands for
    [ValueError]. *)
Variable int : string → option Z.

(** The [try] block of [countdown_solver()] up to the sorting: the target
    and the six numbers read from [sys.argv]. [None] stands for the
    [IndexError] or [ValueError] that the [except] clause catches. *)
Definition read_arguments (argv : list string) : option (Z * list Z) :=
  target ← argv !! 1%nat ≫= int;
  unsorted_numbers ← mapM (λ n, argv !! Z.to_nat (n + 2) ≫= int) (range 0 6);
  Some (target, unsorted_numbers).

(** The script run on the command line [argv]: the text that
    [countdown_solver()] prints. *)
Definition main (argv : list string) : option string :=
  match read_arguments argv with
  | None => Some ("You must provide a target and numbers!" ++ newline)%string
  | Some (target, unsorted_numbers) =>
      '(diff, results) ← countdown_solver target unsorted_numbers;
      Some (output target diff results)
  end.

End command_line.

(** * Notions used to state the properties *)

(** [covers all_numbers m idx]: every non-empty subsequence of
    [all_numbers] of length at most [m] is a key of [idx]. *)
Definition covers (all_numbers : list Z) (m : nat) (idx : Index) : Prop :=
  ∀ s, s `sublist_of` all_numbers → (1 ≤ length s ≤ m)%nat → s ∈ idx.*1.

(** The operands of [generate] after its swap: the one with the larger
    result first, [calca] first on a tie. *)
Definition ordered_operands (calca calcb : Calculation) : Calculation * Calculation :=
  if bool_decide (result calca < result calcb) then (calcb, calca) else (calca, calcb).

(** The calculation [generate] builds from the ordered operands and one
    (result, symbol) pair of [operations]. *)
Definition combine (chi clo : Calculation) (rop : Z * string) : Calculation :=
  mkCalculation (Calculation.operand chi ++ " " ++ rop.2 ++ " " ++ Calculation.operand clo)%string rop.1 false.

(** What holds of a group stored under [key]. *)
Record group_wf (all_numbers key : list Z) (g : Group) : Prop := GroupWf {
  wf_numbers : g.(numbers) = key;
  wf_size : g.(size) = length key;
  wf_sublist : key `sublist_of` all_numbers;
  wf_nonempty : key ≠ [];
  wf_partitions : ∀ A B, (A, B) ∈ g.(partitions) →
    (A.(size) + B.(size))%nat = g.(size)
    ∧ A.(numbers) ++ B.(numbers) ≡ₚ g.(numbers)
    ∧ A.(numbers) `sublist_of` g.(numbers)
    ∧ B.(numbers) = Group.filtering g.(numbers) A.(numbers);
  wf_single : g.(size) = 1%nat → g.(partitions) = [];
  wf_calculations : g.(calculations) ≠ []
}.

(** The dictionary invariant: keys are distinct, every group is well
    formed, and the groups of its partitions are in the dictionary. *)
Record index_wf (all_numbers : list Z) (idx : Index) : Prop := IndexWf {
  iwf_NoDup : NoDup idx.*1;
  iwf_groups : ∀ key g, (key, g) ∈ idx → group_wf all_numbers key g;
  iwf_closed : ∀ key g A B, (key, g) ∈ idx → (A, B) ∈ g.(partitions) →
    (A.(numbers), A) ∈ idx ∧ (B.(numbers), B) ∈ idx
}.

Definition positive_results (idx : Index) : Prop :=
  ∀ key g c, (key, g) ∈ idx → c ∈ g.(calculations) → 0 < result c.

(** The calculations [walk] yields for a tuple handed to [Solutions]. *)
Definition all_calculations (nums : list Z) : list Calculation :=
  default [] (Solutions.walk <$> Solutions.unique_groups nums).

(** The keys of the dictionary built for a tuple. *)
Definition all_keys (nums : list Z) : list (list Z) :=
  default [] ((λ idx : Index, idx.*1) <$> Solutions.unique_groups nums).

(** The pairs of tuples a group of the dictionary is partitioned into. *)
Definition partition_numbers (nums key : list Z) : option (list (list Z * list Z)) :=
  idx ← Solutions.unique_groups nums;
  g ← index_get idx key;
  Some ((λ '(A, B), (A.(numbers), B.(numbers))) <$> g.(partitions)).

(** The binomial coefficient, by Pascal's rule. *)
Fixpoint binom (n k : nat) : nat :=
  match n, k with
  | _, O => 1
  | O, S _ => 0
  | S n', S k' => binom n' k' + binom n' k
  end.

(** A sequence of calls in which a key never comes back after another key
    has been called. *)
Inductive contiguous {K} : list K → Prop :=
  | contiguous_nil : contiguous []
  | contiguous_snoc l x :
      contiguous l → (x ∈ l → last l = Some x) → contiguous (l ++ [x]).

(** The number of distinct keys of a sequence of calls. *)
Definition distinct (calls : list (Z * Z)) : nat :=
  base.size (list_to_set (C := gset (Z * Z)) calls).

(** The calls of [halfbinom] made while the dictionary was built: one by
    each group of size other than 1, in the order the groups were
    created. *)
Definition halfbinom_calls (idx : Index) : list (Z * Z) :=
  '(_, g) ← idx;
  if decide (g.(size) = 1%nat) then []
  else [(Z.of_nat g.(size), Z.of_nat g.(size) `div` 2)].

(** The difference the search compares. *)
Definition difference (target : Z) (c : Calculation) : Z := Z.abs (result c - target).

(** The smallest of [init] and the differences of [calcs]. *)
Definition least_difference (target init : Z) (calcs : list Calculation) : Z :=
  foldl (λ m c, m `min` difference target c) init calcs.

(** [reachable nums v]: the value [v] is obtained from the numbers [nums],
    each used exactly once, by an expression tree whose every node is an
    operation that [operations] admits on the results of its two
    subtrees, the larger one first. *)
Inductive reachable : list Z → Z → Prop :=
  | reachable_number n : reachable [n] n
  | reachable_operation X Y nums x y r op :
      reachable X x → reachable Y y → X ++ Y ≡ₚ nums →
      (r, op) ∈ Calculation.operations (x `max` y) (x `min` y) →
      reachable nums r.

(** * Lemmas *)

(** ** Calculation generation *)

Section operations.
Implicit Types x y hi lo r : Z.
Implicit Types op : string.

Lemma operations_head x y :
  ∃ rest, Calculation.operations x y = (x + y, "+") :: rest.
Proof. unfold Calculation.operations. simpl. eauto. Qed.

Lemma elem_of_operations x y r op :
  (r, op) ∈ Calculation.operations x y ↔
    (op = "+" ∧ r = x + y)
    ∨ (op = "-" ∧ r = x - y ∧ x > y)
    ∨ (op = "x" ∧ r = x * y ∧ y > 1 ∧ x > 1)
    ∨ (op = "/" ∧ r = x `div` y ∧ y > 1 ∧ x `mod` y = 0).
Proof.
  unfold Calculation.operations.
  rewrite !elem_of_app, list_elem_of_singleton.
  repeat case_bool_decide; simpl;
    rewrite ?list_elem_of_singleton, ?elem_of_nil;
    split; intros Hin; destruct_or?; destruct_and?; simplify_eq; try lia; eauto 10.
Qed.

Lemma operations_positive x y r op :
  0 < y → y ≤ x → (r, op) ∈ Calculation.operations x y → 0 < r.
Proof.
  intros Hy Hxy. rewrite elem_of_operations.
  intros [[_ ->]|[(_&->&?)|[(_&->&?&?)|(_&->&?&Hm)]]]; try lia.
  apply Z.div_str_pos. lia.
Qed.
End operations.

(** ** Combinations and filtering *)

Section combinations.
Context {A : Type}.
Implicit Types l xs : list A.

Lemma combinations_0 l : combinations l 0 = [[]].
Proof. by destruct l. Qed.

Lemma elem_of_combinations l m xs :
  xs ∈ combinations l m ↔ xs `sublist_of` l ∧ length xs = m.
Proof.
  revert m xs. induction l as [|x l IH]; intros m xs.
  - destruct m; simpl.
    + rewrite list_elem_of_singleton, sublist_nil_r. split; [by intros ->|tauto].
    + rewrite elem_of_nil, sublist_nil_r. split; [done|]. by intros [-> ?].
  - destruct m as [|m]; simpl.
    + rewrite list_elem_of_singleton. split.
      * intros ->. split; [apply sublist_nil_l|done].
      * intros [_ Hl]. by apply nil_length_inv.
    + rewrite elem_of_app, list_elem_of_fmap, sublist_cons_r. setoid_rewrite IH. split.
      * intros [(ys & -> & Hs & <-)|[Hs Hl]]; [|tauto]. split; [|done]. right. eauto.
      * intros [[Hs|(ys & -> & Hs)] Hl]; [tauto|]. left. exists ys. simpl in Hl. auto with lia.
Qed.

Lemma combinations_nonempty l m : (m ≤ length l)%nat → combinations l m ≠ [].
Proof.
  intros Hm Hnil.
  assert (take m l ∈ combinations l m) as Hin.
  { apply elem_of_combinations. split; [apply sublist_take|]. rewrite length_take. lia. }
  rewrite Hnil in Hin. by apply elem_of_nil in Hin.
Qed.
End combinations.

Section filtering.
Implicit Types l el : list Z.

Lemma filtering_nil_r l : Group.filtering l [] = l.
Proof. induction l; simpl; congruence. Qed.

Lemma filtering_sublist l el : Group.filtering l el `sublist_of` l.
Proof.
  revert el. induction l as [|n l IH]; intros el; simpl; [done|].
  destruct el as [|k el]; [by apply sublist_skip|].
  case_bool_decide; [by apply sublist_cons|by apply sublist_skip].
Qed.

(** The tuple left by [filtering] is the multiset complement of the
    removed subsequence. *)
Lemma filtering_Permutation l el :
  el `sublist_of` l → el ++ Group.filtering l el ≡ₚ l.
Proof.
  revert el. induction l as [|n l IH]; intros el Hs.
  - apply sublist_nil_r in Hs as ->. done.
  - destruct el as [|k el]; simpl.
    + by rewrite filtering_nil_r.
    + case_bool_decide as Hnk.
      * subst k. f_equiv. apply IH.
        apply sublist_cons_r in Hs as [Hs|(el' & [= <-] & Hs)]; [|done].
        transitivity (n :: el); [by apply sublist_cons|done].
      * apply sublist_cons_r in Hs as [Hs|(el' & [= ? ?] & Hs)]; [|congruence].
        etrans; [symmetry; apply (Permutation_middle (k :: el))|]. f_equiv. by apply IH.
Qed.

Lemma filtering_length l el :
  el `sublist_of` l → (length el + length (Group.filtering l el) = length l)%nat.
Proof. intros Hs. by rewrite <-length_app, (filtering_Permutation l el Hs). Qed.
End filtering.

(** ** The dictionary of groups *)

Section index.
Implicit Types idx : Index.
Implicit Types key : list Z.
Implicit Types g : Group.

Lemma index_get_elem_of idx key g :
  index_get idx key = Some g → (key, g) ∈ idx.
Proof.
  induction idx as [|[k g'] idx IH]; simpl; [done|].
  case_decide as Hk; intros Hg; [simplify_eq; left|right; auto].
Qed.

Lemma index_get_is_Some idx key :
  is_Some (index_get idx key) ↔ key ∈ idx.*1.
Proof.
  induction idx as [|[k g'] idx IH]; simpl.
  - rewrite elem_of_nil. split; [by intros [? ?]|done].
  - rewrite elem_of_cons. destruct (decide (k = key)) as [->|Hk].
    + split; eauto.
    + rewrite IH. split; [tauto|]. by intros [?|?].
Qed.

Lemma index_mem_spec idx key : index_mem idx key = true ↔ key ∈ idx.*1.
Proof. unfold index_mem. by rewrite bool_decide_eq_true, index_get_is_Some. Qed.

Lemma index_get_app_l idx idx' key :
  is_Some (index_get idx key) → index_get (idx ++ idx') key = index_get idx key.
Proof.
  induction idx as [|[k g'] idx IH]; simpl; [by intros [? ?]|].
  case_decide; auto.
Qed.

Lemma index_get_snoc idx key g key' :
  key' ∉ idx.*1 →
  index_get (idx ++ [(key', g)]) key =
    if decide (key' = key) then Some g else index_get idx key.
Proof.
  induction idx as [|[k g'] idx IH]; simpl; [done|].
  rewrite not_elem_of_cons. intros [Hne Hnin].
  destruct (decide (k = key)) as [->|Hk]; [by rewrite decide_False|by apply IH].
Qed.
End index.

(** ** Partitioning a group *)

Section partition.
Implicit Types idx : Index.
Implicit Types numbers : list Z.
Implicit Types u : gset (list Z).
Implicit Types A B : Group.

Lemma zip_longest_fst {X Y} (l : list X) (k : list Y) x :
  (length k ≤ length l)%nat → x ∈ zip_longest l k → ∃ m lim, x = (Some m, lim) ∧ m ∈ l.
Proof.
  revert k. induction l as [|a l IH]; intros [|b k] Hlen; simpl in *; try lia.
  - by rewrite elem_of_nil.
  - rewrite elem_of_cons. intros [->|Hx]; [eexists _, _; split; [done|left]|].
    destruct (IH [] ltac:(simpl; lia) Hx) as (m & lim & -> & ?). eexists _, _. split; [done|by right].
  - rewrite elem_of_cons. intros [->|Hx]; [eexists _, _; split; [done|left]|].
    destruct (IH k ltac:(lia) Hx) as (m & lim & -> & ?). eexists _, _. split; [done|by right].
Qed.

Lemma paired_loop_elem numbers limit cnt combs n1 n2 :
  (n1, n2) ∈ Group.paired_loop numbers limit cnt combs →
  n1 ∈ combs ∧ n2 = Group.filtering numbers n1.
Proof.
  revert cnt. induction combs as [|c combs IH]; intros cnt; simpl; [by rewrite elem_of_nil|].
  rewrite elem_of_cons. intros [[= -> ->]|Hin]; [split; [left|done]|].
  case_bool_decide; [by apply elem_of_nil in Hin|].
  destruct (IH _ Hin). split; [by right|done].
Qed.

Lemma unique_loop_is_Some idx u pairs :
  (∀ n1 n2, (n1, n2) ∈ pairs → is_Some (index_get idx n1) ∧ is_Some (index_get idx n2)) →
  is_Some (Group.unique_loop idx u pairs).
Proof.
  revert u. induction pairs as [|[n1 n2] pairs IH]; intros u Hall; simpl; [by eexists|].
  assert (∀ u', is_Some (Group.unique_loop idx u' pairs)) as Hrest.
  { intros u'. apply IH. intros ???. apply Hall. by right. }
  case_bool_decide; [done|].
  destruct (Hall n1 n2) as [[A ->] [B ->]]; [left|]. simpl.
  destruct (Hrest ({[n1]} ∪ u)) as [[u' out] ->]. by eexists.
Qed.

Lemma unique_loop_elem idx u pairs u' out A B :
  Group.unique_loop idx u pairs = Some (u', out) → (A, B) ∈ out →
  ∃ n1 n2, (n1, n2) ∈ pairs ∧ index_get idx n1 = Some A ∧ index_get idx n2 = Some B.
Proof.
  revert u out. induction pairs as [|[n1 n2] pairs IH]; intros u out; simpl.
  - intros [= <- <-]. by rewrite elem_of_nil.
  - case_bool_decide.
    + intros Hl Hin. destruct (IH _ _ Hl Hin) as (m1 & m2 & ? & ? & ?).
      exists m1, m2. split; [by right|done].
    + destruct (index_get idx n1) as [g1|] eqn:Hg1; [|done].
      destruct (index_get idx n2) as [g2|] eqn:Hg2; [|done]. simpl.
      destruct (Group.unique_loop idx _ pairs) as [[u'' out']|] eqn:Hl; [|done]. simpl.
      intros [= <- <-]. rewrite elem_of_cons. intros [[= -> ->]|Hin].
      * exists n1, n2. split; [left|done].
      * destruct (IH _ _ Hl Hin) as (m1 & m2 & ? & ? & ?).
        exists m1, m2. split; [by right|done].
Qed.

Lemma unique_loop_nonempty idx p pairs u' out :
  Group.unique_loop idx ∅ (p :: pairs) = Some (u', out) → out ≠ [].
Proof.
  destruct p as [n1 n2]. simpl. rewrite bool_decide_eq_false_2 by set_solver.
  destruct (index_get idx n1); [|done]. destruct (index_get idx n2); [|done]. simpl.
  destruct (Group.unique_loop idx _ pairs) as [[??]|]; [|done]. simpl. by intros [= <- <-].
Qed.

Lemma partition_loop_is_Some idx numbers u ms :
  (∀ x, x ∈ ms → ∃ m lim, x = (Some m, lim) ∧
     ∀ n1, n1 ∈ combinations numbers m →
       is_Some (index_get idx n1) ∧ is_Some (index_get idx (Group.filtering numbers n1))) →
  is_Some (Group.partition_loop idx numbers u ms).
Proof.
  revert u. induction ms as [|x ms IH]; intros u Hall; simpl; [by eexists|].
  destruct (Hall x) as (m & lim & -> & Hm); [left|].
  edestruct (unique_loop_is_Some idx u) as [[u' out] ->].
  { intros n1 n2 [? ->]%paired_loop_elem. by apply Hm. }
  simpl. destruct (IH u') as [out' ->]; [|by eexists].
  intros ??. apply Hall. by right.
Qed.

Lemma partition_loop_elem idx numbers u ms out A B :
  Group.partition_loop idx numbers u ms = Some out → (A, B) ∈ out →
  ∃ m lim n1, (Some m, lim) ∈ ms ∧ n1 ∈ combinations numbers m ∧
    index_get idx n1 = Some A ∧ index_get idx (Group.filtering numbers n1) = Some B.
Proof.
  revert u out. induction ms as [|[[m|] lim] ms IH]; intros u out; simpl; [|..|done].
  - intros [= <-]. by rewrite elem_of_nil.
  - destruct (Group.unique_loop idx u _) as [[u' o1]|] eqn:Hl; [|done]. simpl.
    destruct (Group.partition_loop idx numbers u' ms) as [o2|] eqn:Hp; [|done]. simpl.
    intros [= <-]. rewrite elem_of_app. intros [Hin|Hin].
    + destruct (unique_loop_elem _ _ _ _ _ _ _ Hl Hin) as (n1 & n2 & [? ->]%paired_loop_elem & ? & ?).
      exists m, lim, n1. split; [left|done].
    + destruct (IH _ _ Hp Hin) as (m' & lim' & n1 & ? & ?).
      exists m', lim', n1. split; [by right|done].
Qed.

(** Every pair stored by [partition_into_unique_pairs] was looked up in
    the dictionary under a proper subsequence and what [filtering]
    leaves of the tuple. *)
Lemma partition_pairs_elem numbers idx out A B :
  Group.partition_into_unique_pairs numbers (length numbers) idx = Some out →
  (A, B) ∈ out →
  ∃ n1, n1 `sublist_of` numbers
    ∧ ((length numbers + 1) / 2 ≤ length n1 < length numbers)%nat
    ∧ index_get idx n1 = Some A
    ∧ index_get idx (Group.filtering numbers n1) = Some B.
Proof.
  unfold Group.partition_into_unique_pairs. case_decide as Hone.
  { intros [= <-]. by rewrite elem_of_nil. }
  destruct (decide (length numbers = 0)%nat) as [Hz|Hz].
  { rewrite Hz. done. }
  assert ((length numbers + 1) / 2 < length numbers)%nat as Hhalf.
  { apply Nat.Div0.div_lt_upper_bound. lia. }
  intros Hp Hin.
  destruct (partition_loop_elem _ _ _ _ _ _ _ Hp Hin) as (m & lim & n1 & Hm & Hn1 & ? & ?).
  apply zip_longest_fst in Hm as (m' & lim' & [= <- <-] & Hm).
  - apply elem_of_seq in Hm. apply elem_of_combinations in Hn1 as [? <-].
    exists n1. split_and!; [done|lia..|done|done].
  - rewrite length_seq. change (length [_]) with 1%nat. lia.
Qed.
End partition.

(** ** Building a group and the dictionary *)

Section construction.
Implicit Types idx : Index.
Implicit Types nums all_numbers : list Z.
Implicit Types g : Group.

Lemma init_fields nums idx g :
  Group.__init__ nums idx = Some g →
  g.(numbers) = nums ∧ g.(size) = length nums
  ∧ Group.partition_into_unique_pairs nums (length nums) idx = Some g.(partitions)
  ∧ Group.perform_calculations nums (length nums) g.(partitions) = Some g.(calculations).
Proof.
  unfold Group.__init__.
  destruct (Group.partition_into_unique_pairs _ _ _) as [ps|]; [|done]. simpl.
  destruct (Group.perform_calculations _ _ _) as [cs|] eqn:Hc; [|done]. simpl.
  by intros [= <-].
Qed.

Lemma covers_mono all_numbers m idx idx' :
  idx.*1 ⊆ idx'.*1 → covers all_numbers m idx → covers all_numbers m idx'.
Proof. intros Hsub Hc s ??. by apply Hsub, Hc. Qed.

(** No lookup of [Group(numbers, all_groups)] fails once all shorter
    subsequences are in the dictionary. *)
Lemma init_is_Some all_numbers nums idx :
  nums `sublist_of` all_numbers → nums ≠ [] →
  covers all_numbers (length nums - 1) idx →
  is_Some (Group.__init__ nums idx).
Proof.
  intros Hsub Hne Hcov. unfold Group.__init__.
  assert (length nums ≠ 0)%nat as Hz by (by destruct nums).
  assert (is_Some (Group.partition_into_unique_pairs nums (length nums) idx)) as [ps ->].
  { unfold Group.partition_into_unique_pairs. case_decide as Hone; [by eexists|].
    assert ((length nums + 1) / 2 < length nums)%nat as Hhalf.
    { apply Nat.Div0.div_lt_upper_bound. lia. }
    assert (1 ≤ (length nums + 1) / 2)%nat as Hhalf'.
    { apply Nat.div_le_lower_bound; lia. }
    apply partition_loop_is_Some. intros x Hx.
    apply zip_longest_fst in Hx as (m & lim & -> & Hm%elem_of_seq).
    2:{ rewrite length_seq. change (length [_]) with 1%nat. lia. }
    exists m, lim. split; [done|]. intros n1 [Hs1 Hl1]%elem_of_combinations.
    pose proof (filtering_length _ _ Hs1) as Hl2.
    rewrite !index_get_is_Some. split; apply Hcov.
    - by transitivity nums.
    - lia.
    - transitivity nums; [apply filtering_sublist|done].
    - lia. }
  simpl. unfold Group.perform_calculations. case_decide; [|by eexists].
  destruct nums; [done|]. by eexists.
Qed.

Lemma groups_loop_app idx cands cands' :
  Solutions.groups_loop idx (cands ++ cands') =
    Solutions.groups_loop idx cands ≫= λ idx', Solutions.groups_loop idx' cands'.
Proof.
  revert idx. induction cands as [|c cands IH]; intros idx; simpl; [done|].
  destruct (index_mem idx c); [done|].
  destruct (Group.__init__ c idx); simpl; [apply IH|done].
Qed.

(** An invariant of the dictionary that every insertion of a new group
    preserves holds of the dictionary returned. *)
Lemma groups_loop_inv (Inv : Index → Prop) cands idx idx' :
  (∀ idx nums g,
      Inv idx → nums ∈ cands → nums ∉ idx.*1 →
      Group.__init__ nums idx = Some g → Inv (idx ++ [(nums, g)])) →
  Inv idx → Solutions.groups_loop idx cands = Some idx' → Inv idx'.
Proof.
  revert idx. induction cands as [|c cands IH]; intros idx Hstep Hinv; simpl.
  - by intros [= <-].
  - assert (∀ idx nums g,
      Inv idx → nums ∈ cands → nums ∉ idx.*1 →
      Group.__init__ nums idx = Some g → Inv (idx ++ [(nums, g)])) as Hstep'.
    { intros ??? ? ?. apply Hstep; [done|by right]. }
    destruct (index_mem idx c) eqn:Hmem; [by apply IH|].
    destruct (Group.__init__ c idx) as [g|] eqn:Hnew; [|done]. simpl.
    apply IH; [done|]. apply Hstep; [done|left|..|done].
    rewrite <-index_mem_spec. by rewrite Hmem.
Qed.

(** One pass of the inner loop of [unique_groups], over candidates of
    length [m + 1]. *)
Lemma groups_loop_chunk all_numbers m cands idx :
  (∀ c, c ∈ cands → c `sublist_of` all_numbers ∧ length c = S m) →
  covers all_numbers m idx →
  ∃ idx', Solutions.groups_loop idx cands = Some idx'
    ∧ idx.*1 ⊆ idx'.*1 ∧ (∀ c, c ∈ cands → c ∈ idx'.*1).
Proof.
  revert idx. induction cands as [|c cands IH]; intros idx Hc Hcov; simpl.
  { exists idx. split_and!; [done..|]. intros ?. by rewrite elem_of_nil. }
  assert (∀ c, c ∈ cands → c `sublist_of` all_numbers ∧ length c = S m) as Hc'.
  { intros ??. apply Hc. by right. }
  destruct (index_mem idx c) eqn:Hmem.
  - destruct (IH idx Hc' Hcov) as (idx' & -> & Hsub & Hin).
    exists idx'. split_and!; [done..|].
    intros c' [->|?]%elem_of_cons; [|by auto]. by apply Hsub, index_mem_spec.
  - destruct (Hc c) as [Hs Hl]; [left|].
    destruct (init_is_Some all_numbers c idx) as [g ->]; [done|by destruct c|..].
    { rewrite Hl. by replace (S m - 1)%nat with m by lia. }
    simpl. destruct (IH (idx ++ [(c, g)]) Hc') as (idx' & -> & Hsub & Hin).
    { eapply covers_mono; [|done]. rewrite fmap_app. by apply list_subseteq_app_l. }
    rewrite fmap_app in Hsub.
    exists idx'. split_and!; [done|..].
    + intros k ?. apply Hsub, elem_of_app. by left.
    + intros c' [->|?]%elem_of_cons; [|by auto]. apply Hsub, elem_of_app. right. left.
Qed.

Lemma groups_loop_sizes all_numbers len start idx :
  covers all_numbers start idx →
  ∃ idx', Solutions.groups_loop idx (m ← seq (S start) len; combinations all_numbers m) = Some idx'
    ∧ covers all_numbers (start + len) idx'.
Proof.
  revert start idx. induction len as [|len IH]; intros start idx Hcov.
  { exists idx. by rewrite Nat.add_0_r. }
  destruct (groups_loop_chunk all_numbers start (combinations all_numbers (S start)) idx)
    as (idx1 & Hloop1 & Hsub & Hin); [|done|].
  { by intros c ?%elem_of_combinations. }
  destruct (IH (S start) idx1) as (idx' & Hloop' & Hcov').
  - intros s Hs Hl. destruct (decide (length s = S start)).
    + apply Hin, elem_of_combinations. done.
    + apply Hsub, Hcov; [done|lia].
  - exists idx'. split.
    + cbn [seq]. rewrite bind_cons, groups_loop_app, Hloop1. exact Hloop'.
    + by replace (start + S len)%nat with (S start + len)%nat by lia.
Qed.

(** Building the dictionary never fails, and it holds every non-empty
    subsequence of the input. *)
Lemma unique_groups_total all_numbers :
  ∃ idx, Solutions.unique_groups all_numbers = Some idx
    ∧ covers all_numbers (length all_numbers) idx.
Proof.
  unfold Solutions.unique_groups.
  destruct (groups_loop_sizes all_numbers (length all_numbers) 0 []) as (idx & -> & ?).
  - intros s _ ?. lia.
  - by exists idx.
Qed.
End construction.

(** ** Generated calculations *)

Section generate.
Implicit Types calca calcb c : Calculation.

Lemma generate_unfold calca calcb :
  Calculation.generate calca calcb =
    combine (ordered_operands calca calcb).1 (ordered_operands calca calcb).2
      <$> Calculation.operations (result (ordered_operands calca calcb).1)
                          (result (ordered_operands calca calcb).2).
Proof.
  unfold Calculation.generate, ordered_operands.
  case_bool_decide; cbn [fst snd]; apply list_fmap_ext; by intros ? [??].
Qed.

Lemma ordered_operands_results calca calcb :
  result (ordered_operands calca calcb).1 = result calca `max` result calcb
  ∧ result (ordered_operands calca calcb).2 = result calca `min` result calcb.
Proof. unfold ordered_operands. case_bool_decide; simpl; lia. Qed.

Lemma generate_head calca calcb :
  ∃ rest, Calculation.generate calca calcb =
    combine (ordered_operands calca calcb).1 (ordered_operands calca calcb).2
            (result calca + result calcb, "+") :: rest.
Proof.
  rewrite generate_unfold.
  destruct (operations_head (result (ordered_operands calca calcb).1)
              (result (ordered_operands calca calcb).2)) as [rest ->].
  exists (combine (ordered_operands calca calcb).1 (ordered_operands calca calcb).2 <$> rest).
  rewrite fmap_cons. do 3 f_equal.
  destruct (ordered_operands_results calca calcb) as [-> ->]. lia.
Qed.

Lemma generate_positive calca calcb c :
  0 < result calca → 0 < result calcb → c ∈ Calculation.generate calca calcb → 0 < result c.
Proof.
  intros Ha Hb. rewrite generate_unfold.
  intros ([r op] & -> & Hin)%list_elem_of_fmap. simpl.
  destruct (ordered_operands_results calca calcb) as [Hhi Hlo].
  eapply operations_positive; [| |done]; lia.
Qed.
End generate.

(** ** Invariants of the groups in the dictionary *)

Section invariants.
Implicit Types idx : Index.
Implicit Types key all_numbers : list Z.
Implicit Types g A B : Group.

Lemma partition_pairs_nonempty nums idx out :
  (2 ≤ length nums)%nat →
  Group.partition_into_unique_pairs nums (length nums) idx = Some out → out ≠ [].
Proof.
  intros Hlen. unfold Group.partition_into_unique_pairs.
  rewrite decide_False by lia.
  assert ((length nums + 1) / 2 < length nums)%nat as Hhalf.
  { apply Nat.Div0.div_lt_upper_bound. lia. }
  destruct (length nums - (length nums + 1) / 2)%nat as [|len] eqn:Hlen'; [lia|].
  cbn [seq zip_longest Group.partition_loop].
  destruct (Group.unique_loop idx ∅ _) as [[u o1]|] eqn:Hl; [|done]. cbn [mbind option_bind].
  destruct (Group.partition_loop idx nums u _) as [o2|]; [|done]. cbn [mbind option_bind].
  intros [= <-] [Ho1 _]%app_eq_nil. revert Hl. unfold Group.paired_combinations.
  destruct (combinations nums ((length nums + 1) / 2)) as [|c cs] eqn:Hc.
  { apply combinations_nonempty in Hc; [done|lia]. }
  cbn [Group.paired_loop]. intros Hl. by apply unique_loop_nonempty in Hl.
Qed.

Lemma bind_nonempty {X Y} (f : X → list Y) (l : list X) x :
  x ∈ l → f x ≠ [] → l ≫= f ≠ [].
Proof.
  intros Hx Hf Hnil. destruct (f x) as [|y ys] eqn:Hfx; [done|].
  assert (y ∈ l ≫= f) as Hy.
  { apply list_elem_of_bind. exists x. split; [|done]. rewrite Hfx. left. }
  rewrite Hnil in Hy. by apply elem_of_nil in Hy.
Qed.

Lemma index_wf_nil all_numbers : index_wf all_numbers [].
Proof.
  split.
  - constructor.
  - intros ?? []%elem_of_nil.
  - intros ???? []%elem_of_nil.
Qed.

Lemma index_wf_snoc all_numbers idx nums g :
  index_wf all_numbers idx → nums `sublist_of` all_numbers → nums ≠ [] →
  nums ∉ idx.*1 → Group.__init__ nums idx = Some g →
  index_wf all_numbers (idx ++ [(nums, g)]).
Proof.
  intros [Hnd Hwf Hcl] Hsub Hne Hfresh Hnew.
  apply init_fields in Hnew as (Hn & Hs & Hp & Hc).
  assert (∀ A B, (A, B) ∈ g.(partitions) →
    ∃ n1, n1 `sublist_of` nums
      ∧ ((length nums + 1) / 2 ≤ length n1 < length nums)%nat
      ∧ (n1, A) ∈ idx ∧ (Group.filtering nums n1, B) ∈ idx) as Hpairs.
  { intros A B HAB.
    destruct (partition_pairs_elem _ _ _ _ _ Hp HAB) as (n1 & ? & ? & ?%index_get_elem_of & ?%index_get_elem_of).
    by exists n1. }
  split.
  - rewrite fmap_app. apply NoDup_app. split_and!; [done| |apply NoDup_singleton].
    intros k Hk ->%list_elem_of_singleton. done.
  - intros key g' [Hin|[= -> ->]%list_elem_of_singleton]%elem_of_app; [by apply Hwf|].
    split; [done..| | |].
    + intros A B HAB. destruct (Hpairs A B HAB) as (n1 & Hs1 & Hl1 & HA & HB).
      destruct (Hwf _ _ HA) as [HAn HAs _ _ _ _ _].
      destruct (Hwf _ _ HB) as [HBn HBs _ _ _ _ _].
      rewrite HAn, HBn, HAs, HBs, Hn, Hs. split_and!; [|by apply filtering_Permutation|done..].
      by apply filtering_length.
    + intros Hone. revert Hp. unfold Group.partition_into_unique_pairs.
      rewrite decide_True by congruence. congruence.
    + revert Hc. unfold Group.perform_calculations. case_decide as Hone.
      { destruct (head nums); [|done]. simpl. by intros [= <-]. }
      intros [= <-].
      assert (2 ≤ length nums)%nat as Hlen by (destruct nums as [|?[|??]]; simpl in *; done || lia).
      destruct (partitions g) as [|[A B] ps] eqn:Hps.
      { by apply partition_pairs_nonempty in Hp. }
      destruct (Hpairs A B) as (n1 & _ & _ & HA & HB); [left|].
      destruct (Hwf _ _ HA) as [_ _ _ _ _ _ HAc].
      destruct (Hwf _ _ HB) as [_ _ _ _ _ _ HBc].
      destruct (calculations A) as [|ca ?] eqn:HcA; [done|].
      destruct (calculations B) as [|cb ?] eqn:HcB; [done|].
      eapply (bind_nonempty _ _ (A, B)); [left|]. rewrite HcA, HcB.
      eapply (bind_nonempty _ _ (ca, cb)).
      { apply list_elem_of_bind. exists ca. split; [|left]. apply list_elem_of_fmap. exists cb. split; [done|left]. }
      by destruct (generate_head ca cb) as [rest ->].
  - intros key g' A B [Hin|[= -> ->]%list_elem_of_singleton]%elem_of_app HAB.
    + destruct (Hcl _ _ _ _ Hin HAB). split; apply elem_of_app; by left.
    + destruct (Hpairs A B HAB) as (n1 & Hs1 & Hl1 & HA & HB).
      destruct (Hwf _ _ HA) as [-> _ _ _ _ _ _].
      destruct (Hwf _ _ HB) as [-> _ _ _ _ _ _].
      split; apply elem_of_app; by left.
Qed.

(** The dictionary built by [unique_groups] satisfies the invariant. *)
Lemma unique_groups_wf all_numbers idx :
  Solutions.unique_groups all_numbers = Some idx → index_wf all_numbers idx.
Proof.
  unfold Solutions.unique_groups.
  apply groups_loop_inv; [|apply index_wf_nil].
  intros idx' nums g Hinv (m & [Hs Hl]%elem_of_combinations & Hm%elem_of_seq)%list_elem_of_bind Hfresh Hnew.
  apply index_wf_snoc; [done..| |done|done].
  intros ->. simpl in Hl. lia.
Qed.
End invariants.

(** ** Results are positive *)

Section positive.
Implicit Types idx : Index.
Implicit Types all_numbers : list Z.

Lemma product_elem {X Y} (l : list X) (k : list Y) x y :
  (x, y) ∈ product l k ↔ x ∈ l ∧ y ∈ k.
Proof.
  unfold product. rewrite list_elem_of_bind. split.
  - intros (x' & (y' & [= -> ->] & ?)%list_elem_of_fmap & ?). done.
  - intros [??]. exists x. split; [|done]. apply list_elem_of_fmap. by exists y.
Qed.

Lemma positive_results_snoc all_numbers idx nums g :
  Forall (λ n, 0 < n) all_numbers → nums `sublist_of` all_numbers →
  positive_results idx → Group.__init__ nums idx = Some g →
  positive_results (idx ++ [(nums, g)]).
Proof.
  intros Hall Hsub Hpos Hnew key g' c [Hin|[= -> ->]%list_elem_of_singleton]%elem_of_app;
    [by intros ?; eapply Hpos|].
  apply init_fields in Hnew as (_ & _ & Hp & Hc).
  revert Hc. unfold Group.perform_calculations. case_decide.
  - destruct nums as [|n nums']; [done|]. simpl. intros [= <-] ->%list_elem_of_singleton.
    simpl. rewrite Forall_forall in Hall. apply Hall.
    eapply sublist_subseteq; [done|left].
  - intros [= <-] ([A B] & ([c1 c2] & Hc & [H1 H2]%product_elem)%list_elem_of_bind & HAB)%list_elem_of_bind.
    destruct (partition_pairs_elem _ _ _ _ _ Hp HAB)
      as (n1 & _ & _ & HA%index_get_elem_of & HB%index_get_elem_of).
    eapply generate_positive; [| |done]; eauto.
Qed.

Lemma unique_groups_positive all_numbers idx :
  Forall (λ n, 0 < n) all_numbers →
  Solutions.unique_groups all_numbers = Some idx → positive_results idx.
Proof.
  intros Hall. unfold Solutions.unique_groups.
  apply groups_loop_inv; [|by intros ??? []%elem_of_nil].
  intros idx' nums g Hinv (m & [Hs Hl]%elem_of_combinations & _)%list_elem_of_bind _ Hnew.
  by eapply positive_results_snoc.
Qed.

Lemma elem_of_walk idx c :
  c ∈ Solutions.walk idx ↔ ∃ key g, (key, g) ∈ idx ∧ c ∈ g.(calculations).
Proof.
  unfold Solutions.walk. rewrite list_elem_of_bind. split.
  - intros ([key g] & ? & ?). eauto.
  - intros (key & g & ? & ?). by exists (key, g).
Qed.
End positive.

(** ** Descending order *)

Section descending.
Implicit Types l k : list Z.

#[local] Instance Zge_total : Total Z.ge.
Proof. intros x y. lia. Qed.
#[local] Instance Zge_trans : Transitive Z.ge.
Proof. intros x y z. lia. Qed.
#[local] Instance Zge_antisymm : AntiSymm (=) Z.ge.
Proof. intros x y. lia. Qed.

Lemma sorted_reverse_sorted l : StronglySorted Z.ge (sorted_reverse l).
Proof. apply StronglySorted_merge_sort; apply _. Qed.

Lemma sorted_reverse_Permutation l : sorted_reverse l ≡ₚ l.
Proof. apply merge_sort_Permutation. Qed.

(** The sorted tuple depends on the numbers only, not on their order. *)
Lemma sorted_reverse_perm l k : l ≡ₚ k → sorted_reverse l = sorted_reverse k.
Proof.
  intros Hperm. apply (StronglySorted_unique Z.ge); [apply sorted_reverse_sorted..|].
  by rewrite !sorted_reverse_Permutation.
Qed.

Lemma sublist_StronglySorted {A} (R : relation A) (l k : list A) :
  l `sublist_of` k → StronglySorted R k → StronglySorted R l.
Proof.
  induction 1 as [|x l k Hs IH|x l k Hs IH]; intros Hk; [done|..].
  - apply StronglySorted_inv in Hk as [Hk Hx]. constructor; [by apply IH|].
    rewrite Forall_forall in Hx |- *. intros y Hy. apply Hx. by eapply sublist_subseteq.
  - apply StronglySorted_inv in Hk as [Hk _]. by apply IH.
Qed.

(** Two subsequences of a descending tuple with the same content are the
    same tuple. *)
Lemma sublist_sorted_unique l k all_numbers :
  StronglySorted Z.ge all_numbers →
  l `sublist_of` all_numbers → k `sublist_of` all_numbers → l ≡ₚ k → l = k.
Proof.
  intros Hall Hl Hk. apply (StronglySorted_unique Z.ge); by eapply sublist_StronglySorted.
Qed.
End descending.

(** ** The half binomial coefficient *)

Section halfbinom.
Local Open Scope nat_scope.

Lemma binom_0_r n : binom n 0 = 1.
Proof. by destruct n. Qed.

Lemma binom_gt n k : n < k → binom n k = 0.
Proof.
  revert k. induction n as [|n IH]; intros [|k] Hlt; simpl; try lia.
  rewrite !IH by lia. done.
Qed.

(** [C(n, i+1) * (i+1) = C(n, i) * (n - i)]: what makes each division of
    the loop exact. *)
Lemma binom_step n i : binom n (S i) * S i = binom n i * (n - i).
Proof.
  revert i. induction n as [|n IH]; intros i.
  { simpl. lia. }
  destruct i as [|i].
  - simpl. pose proof (IH 0) as H0. rewrite binom_0_r in *. lia.
  - change (binom (S n) (S (S i))) with (binom n (S i) + binom n (S (S i))).
    change (binom (S n) (S i)) with (binom n i + binom n (S i)).
    pose proof (IH i) as H1. pose proof (IH (S i)) as H2.
    destruct (decide (i < n)) as [Hlt|Hge].
    + replace (S n - S i) with (S (n - S i)) by lia.
      replace (n - i) with (S (n - S i)) in H1 by lia. nia.
    + rewrite (binom_gt n (S i)), (binom_gt n (S (S i))) in * by lia.
      replace (S n - S i) with 0 by lia. replace (n - i) with 0 in H1 by lia. lia.
Qed.

Local Open Scope Z_scope.

Lemma range_length a b : length (range a b) = Z.to_nat (b - a).
Proof. unfold range. by rewrite length_fmap, length_seq. Qed.

Lemma range_nil a b : b ≤ a → range a b = [].
Proof. intros Hle. unfold range. by replace (Z.to_nat (b - a)) with 0%nat by lia. Qed.

Lemma range_cons a b : a < b → range a b = a :: range (a + 1) b.
Proof.
  intros Hlt. unfold range.
  replace (Z.to_nat (b - a)) with (S (Z.to_nat (b - (a + 1)))) by lia.
  rewrite <-cons_seq, fmap_cons. f_equal; [lia|].
  rewrite <-fmap_S_seq, <-list_fmap_compose. apply list_fmap_ext.
  intros _ i _. simpl. lia.
Qed.

Lemma range_snoc a b : a ≤ b → range a (b + 1) = range a b ++ [b].
Proof.
  intros Hle. unfold range.
  replace (Z.to_nat (b + 1 - a)) with (S (Z.to_nat (b - a))) by lia.
  rewrite seq_S, fmap_app. simpl. do 2 f_equal. lia.
Qed.

Lemma halfbinom_steps_succ n j :
  0 ≤ j < n →
  Group.halfbinom_steps n (j + 1) = Group.halfbinom_steps n j ++ [(n - j, j + 1)].
Proof.
  intros Hj. unfold Group.halfbinom_steps.
  replace (n + 1 - (j + 1)) with (n - j) by lia.
  rewrite (range_cons (n - j)) by lia. rewrite reverse_cons.
  replace (n - j + 1) with (n + 1 - j) by lia.
  rewrite (range_snoc 1 (j + 1)) by lia.
  rewrite zip_with_app; [done|].
  rewrite length_reverse, !range_length. lia.
Qed.

(** The steps are [(n, 1), (n - 1, 2), ..., (n - k + 1, k)]. *)
Lemma halfbinom_steps_seq n (k : nat) :
  Z.of_nat k ≤ n →
  Group.halfbinom_steps n (Z.of_nat k)
  = (λ j : nat, (n - Z.of_nat j, Z.of_nat j + 1)) <$> seq 0 k.
Proof.
  induction k as [|k IH]; intros Hk.
  - unfold Group.halfbinom_steps. by rewrite range_nil by lia.
  - rewrite Nat2Z.inj_succ, <-Z.add_1_r, halfbinom_steps_succ by lia.
    rewrite IH by lia. by rewrite seq_S, fmap_app.
Qed.

Lemma halfbinom_loop_snoc steps m l :
  Group.halfbinom_loop (steps ++ [(m, l)]) = (Group.halfbinom_loop steps * m) `div` l.
Proof. unfold Group.halfbinom_loop. by rewrite foldl_snoc. Qed.

(** After [j] iterations the loop holds [C(n, j)], and the division of
    iteration [j + 1] leaves no remainder. *)
Lemma halfbinom_loop_binom (n j : nat) :
  (j ≤ n)%nat →
  Group.halfbinom_loop (Group.halfbinom_steps (Z.of_nat n) (Z.of_nat j)) = Z.of_nat (binom n j)
  ∧ (Z.of_nat (binom n j) * (Z.of_nat n - Z.of_nat j)) `mod` (Z.of_nat j + 1) = 0.
Proof.
  assert (∀ i, (Z.of_nat (binom n i) * (Z.of_nat n - Z.of_nat i))
               = Z.of_nat (binom n (S i)) * (Z.of_nat i + 1)) as Hstep.
  { intros i. pose proof (binom_step n i) as Hs.
    destruct (decide (i ≤ n)%nat).
    - nia.
    - rewrite !binom_gt by lia. lia. }
  intros Hj. split; [|rewrite Hstep; apply Z.mod_mul; lia].
  induction j as [|j IH].
  - rewrite (halfbinom_steps_seq _ 0) by lia. by rewrite binom_0_r.
  - rewrite Nat2Z.inj_succ, <-Z.add_1_r, halfbinom_steps_succ by lia.
    rewrite halfbinom_loop_snoc, IH by lia.
    rewrite Hstep. apply Z.div_mul. lia.
Qed.
End halfbinom.

(** ** The cache around [halfbinom] *)

Section lru.
Context {V : Type} (f : Z → Z → V).
Implicit Types c : LruCache V.
Implicit Types calls : list (Z * Z).

Lemma lru_calls_snoc c calls n k :
  lru_calls f c (calls ++ [(n, k)]) =
    (let '(c', out) := lru_calls f c calls in
     let '(c'', v) := lru_call f c' n k in (c'', out ++ [v])).
Proof. unfold lru_calls. rewrite foldl_snoc. by destruct (foldl _ _ _). Qed.

Lemma distinct_snoc_elem calls x : x ∈ calls → distinct (calls ++ [x]) = distinct calls.
Proof.
  intros Hx. unfold distinct. f_equal. rewrite list_to_set_app_L. simpl.
  apply (elem_of_list_to_set (C := gset (Z * Z))) in Hx. set_solver.
Qed.

Lemma distinct_snoc_fresh calls x : x ∉ calls → distinct (calls ++ [x]) = S (distinct calls).
Proof.
  intros Hx. unfold distinct. rewrite list_to_set_app_L. simpl.
  rewrite size_union by (rewrite <-(elem_of_list_to_set (C := gset (Z * Z))) in Hx; set_solver).
  rewrite union_empty_r_L, size_singleton. lia.
Qed.

(** From an empty cache, over contiguous calls, every call returns what
    the function returns, and the function is reached once per distinct
    key. *)
Lemma lru_calls_contiguous calls :
  contiguous calls →
  let '(c, out) := lru_calls f lru_empty calls in
  out = (λ '(n, k), f n k) <$> calls
  ∧ lru_misses c = distinct calls
  ∧ (∀ key v, (key, v) ∈ lru_entries c → key ∈ calls ∧ v = f key.1 key.2)
  ∧ (∀ x, last calls = Some x → head (lru_entries c).*1 = Some x).
Proof.
  induction 1 as [|calls [n k] Hcont IH Hlast].
  { simpl. split_and!; [done..| |done]. by intros ?? ?%elem_of_nil. }
  rewrite lru_calls_snoc. destruct (lru_calls f lru_empty calls) as [c out].
  destruct IH as (Hout & Hmiss & Hent & Hmru).
  unfold lru_call.
  destruct (list_find _ (lru_entries c)) as [[i [key v]]|] eqn:Hfind.
  - apply list_find_Some in Hfind as (Hi & Hkey & _). simpl in Hkey. subst key.
    pose proof (list_elem_of_lookup_2 _ _ _ Hi) as Hin.
    destruct (Hent _ _ Hin) as [Hcalled Hv]. simpl in Hv.
    split_and!.
    + by rewrite fmap_app, Hout, Hv.
    + simpl. by rewrite distinct_snoc_elem.
    + simpl. intros key' v' [[= -> ->]|Hin']%elem_of_cons.
      * split; [|done]. apply elem_of_app. right. left.
      * assert ((key', v') ∈ lru_entries c) as [??]%Hent.
        { eapply sublist_subseteq; [apply sublist_delete|done]. }
        split; [|done]. apply elem_of_app. by left.
    + intros x. rewrite last_snoc. by intros [= <-].
  - assert ((n, k) ∉ calls) as Hfresh.
    { intros Hin. specialize (Hmru _ (Hlast Hin)).
      destruct (lru_entries c) as [|[key v] es] eqn:Hes; [done|].
      simpl in Hmru. injection Hmru as ->.
      eapply list_find_None, Forall_cons_1 in Hfind as [Hne _]. by apply Hne. }
    split_and!.
    + by rewrite fmap_app, Hout.
    + simpl. by rewrite distinct_snoc_fresh, Hmiss.
    + simpl. intros key' v' [[= -> ->]|Hin']%elem_of_cons.
      * split; [|done]. apply elem_of_app. right. left.
      * assert ((key', v') ∈ lru_entries c) as [??]%Hent.
        { eapply sublist_subseteq; [apply sublist_take|done]. }
        split; [|done]. apply elem_of_app. by left.
    + intros x. rewrite last_snoc. by intros [= <-].
Qed.
End lru.

(** ** The search *)

Section search.
Implicit Types calcs best : list Calculation.
Implicit Types c : Calculation.

Lemma least_difference_le target init calcs :
  least_difference target init calcs ≤ init.
Proof.
  revert init. induction calcs as [|c calcs IH]; intros init; simpl; [done|].
  etrans; [apply IH|]. lia.
Qed.

Lemma least_difference_lower target init calcs c :
  c ∈ calcs → least_difference target init calcs ≤ difference target c.
Proof.
  revert init. induction calcs as [|c' calcs IH]; intros init; [by intros ?%elem_of_nil|].
  intros [->|Hin]%elem_of_cons; simpl; [|by apply IH].
  etrans; [apply least_difference_le|]. lia.
Qed.

(** The loop from any state: the running minimum ends as the least
    difference; the retained list is restarted if a smaller difference was
    met and extended otherwise. *)
Lemma search_loop target calcs smallest best :
  foldl (search_step target) (smallest, best) calcs =
    let m := least_difference target smallest calcs in
    (m, (if bool_decide (m < smallest) then [] else best)
          ++ filter (λ c, difference target c = m) calcs).
Proof.
  revert smallest best. induction calcs as [|c calcs IH]; intros smallest best.
  { simpl. rewrite bool_decide_eq_false_2 by lia. by rewrite app_nil_r. }
  change (foldl (search_step target) (smallest, best) (c :: calcs))
    with (foldl (search_step target) (search_step target (smallest, best) c) calcs).
  change (least_difference target smallest (c :: calcs))
    with (least_difference target (smallest `min` difference target c) calcs).
  assert (search_step target (smallest, best) c =
    if bool_decide (difference target c ≤ smallest) then
      if bool_decide (difference target c < smallest) then (difference target c, [c])
      else (smallest, best ++ [c])
    else (smallest, best)) as -> by done.
  pose proof (least_difference_le target (smallest `min` difference target c) calcs) as Hle.
  cbv zeta. rewrite filter_cons.
  destruct (bool_decide_reflect (difference target c ≤ smallest)) as [Hd|Hd];
    [destruct (bool_decide_reflect (difference target c < smallest)) as [Hd'|Hd']|];
    rewrite IH; cbv zeta.
  - rewrite Z.min_r by lia. rewrite Z.min_r in Hle by lia. f_equal.
    repeat case_bool_decide; case_decide; try lia; done.
  - rewrite Z.min_l by lia. rewrite Z.min_l in Hle by lia. f_equal.
    repeat case_bool_decide; case_decide; try lia; try done.
    by rewrite <-app_assoc.
  - rewrite Z.min_l by lia. rewrite Z.min_l in Hle by lia. f_equal.
    repeat case_bool_decide; case_decide; try lia; done.
Qed.

(** What the search returns: the smaller of the target and the least
    difference, and the calculations at that difference, in the order of
    the walk. *)
Lemma search_spec target calcs :
  search target calcs =
    (least_difference target target calcs,
     filter (λ c, difference target c = least_difference target target calcs) calcs).
Proof.
  unfold search. rewrite search_loop. simpl. by case_bool_decide.
Qed.
End search.

(** ** The calls of [halfbinom] made by the program *)

Section calls.
Implicit Types idx : Index.
Implicit Types all_numbers : list Z.

Lemma sorted_contiguous (l : list nat) : StronglySorted le l → contiguous l.
Proof.
  induction l as [|x l IH] using rev_ind; [constructor|].
  intros (Hle & Hl & _)%StronglySorted_app. constructor; [by apply IH|].
  intros Hx. destruct (last l) as [y|] eqn:Hlast.
  - apply last_Some in Hlast as [l' ->]. f_equal.
    assert (y ≤ x)%nat by (apply Hle; [apply elem_of_app; right|]; left).
    apply elem_of_app in Hx as [Hx| ->%list_elem_of_singleton]; [|done].
    apply StronglySorted_app in Hl as (Hle' & _).
    assert (x ≤ y)%nat by (apply Hle'; [done|left]). lia.
  - apply last_None in Hlast as ->. by apply elem_of_nil in Hx.
Qed.

Lemma contiguous_fmap {A B} (h : A → B) `{!Inj (=) (=) h} (l : list A) :
  contiguous l → contiguous (h <$> l).
Proof.
  induction 1 as [|l x Hc IH Hlast]; [constructor|].
  rewrite fmap_app. constructor; [done|].
  intros Hx%(list_elem_of_fmap_inj_2 h). rewrite fmap_last, Hlast by done. done.
Qed.

(** The keys of the dictionary are in order of increasing length. *)
Lemma groups_loop_lengths m cands idx idx' :
  (∀ c, c ∈ cands → length c = m) →
  StronglySorted le (length <$> idx.*1) → Forall (λ n, n ≤ m)%nat (length <$> idx.*1) →
  Solutions.groups_loop idx cands = Some idx' →
  StronglySorted le (length <$> idx'.*1) ∧ Forall (λ n, n ≤ m)%nat (length <$> idx'.*1).
Proof.
  intros Hcands Hsorted Hbound Hloop.
  eapply (groups_loop_inv (λ idx, StronglySorted le (length <$> idx.*1)
                                  ∧ Forall (λ n, n ≤ m)%nat (length <$> idx.*1)));
    [|by split|done].
  intros idx0 nums g [Hs Hb] Hin _ _. rewrite !fmap_app. split.
  - apply StronglySorted_app_2; [|done|repeat constructor].
    intros x1 x2 Hx1 ->%list_elem_of_singleton. simpl. rewrite (Hcands _ Hin).
    rewrite Forall_forall in Hb. by apply Hb.
  - apply Forall_app. split; [done|]. repeat constructor. simpl. by rewrite (Hcands _ Hin).
Qed.

Lemma groups_loop_sizes_lengths all_numbers len start idx idx' :
  StronglySorted le (length <$> idx.*1) → Forall (λ n, n ≤ start)%nat (length <$> idx.*1) →
  Solutions.groups_loop idx (m ← seq (S start) len; combinations all_numbers m) = Some idx' →
  StronglySorted le (length <$> idx'.*1).
Proof.
  revert start idx. induction len as [|len IH]; intros start idx Hsorted Hbound.
  { by intros [= <-]. }
  cbn [seq]. rewrite bind_cons, groups_loop_app.
  destruct (Solutions.groups_loop idx (combinations all_numbers (S start))) as [idx1|] eqn:Hloop1;
    [|done].
  cbn [mbind option_bind]. 
  destruct (groups_loop_lengths (S start) (combinations all_numbers (S start)) idx idx1)
    as [Hs1 Hb1]; [|done| |done|].
  - by intros c [_ ?]%elem_of_combinations.
  - eapply Forall_impl; [done|]. simpl. lia.
  - by apply IH.
Qed.

Lemma halfbinom_calls_sizes idx :
  (∀ key g, (key, g) ∈ idx → g.(size) = length key) →
  halfbinom_calls idx
  = (λ m : nat, (Z.of_nat m, Z.of_nat m `div` 2)) <$> filter (λ m, m ≠ 1%nat) (length <$> idx.*1).
Proof.
  unfold halfbinom_calls. induction idx as [|[key g] idx IH]; intros Hwf; [done|].
  rewrite bind_cons, !fmap_cons, filter_cons, IH by (intros ???; apply Hwf; by right).
  simpl. rewrite (Hwf key g) by left. by repeat case_decide.
Qed.

(** While the dictionary is built, no pair asked of [halfbinom] comes back
    after another one. *)
Lemma halfbinom_calls_contiguous all_numbers idx :
  Solutions.unique_groups all_numbers = Some idx → contiguous (halfbinom_calls idx).
Proof.
  intros Hidx. pose proof (unique_groups_wf _ _ Hidx) as [_ Hwf _].
  rewrite halfbinom_calls_sizes by (intros ?? Hin; by destruct (Hwf _ _ Hin)).
  apply contiguous_fmap.
  { intros m1 m2 [= ?]. lia. }
  apply sorted_contiguous.
  eapply sublist_StronglySorted; [apply sublist_filter|].
  eapply (groups_loop_sizes_lengths all_numbers _ 0 []); [constructor..|exact Hidx].
Qed.
End calls.


(** ** Further lemmas on [filtering] *)

Section filtering_more.
Implicit Types l el : list Z.

Lemma filtering_all l : Group.filtering l l = [].
Proof. induction l as [|n l IH]; simpl; [done|]. by rewrite bool_decide_eq_true_2. Qed.

Lemma filtering_absent l k el : k ∉ l → Group.filtering l (k :: el) = l.
Proof.
  induction l as [|n l IH]; simpl; [done|].
  rewrite not_elem_of_cons. intros [Hne Hnin].
  rewrite bool_decide_eq_false_2 by congruence. f_equal. by apply IH.
Qed.
End filtering_more.

(** ** Further lemmas on [generate] *)

Section generate_more.
Implicit Types calca calcb c : Calculation.

Lemma generate_swap calca calcb :
  result calca ≠ result calcb →
  Calculation.generate calca calcb = Calculation.generate calcb calca.
Proof.
  intros Hne. rewrite !generate_unfold. unfold ordered_operands.
  repeat case_bool_decide; simpl; try done; lia.
Qed.

Lemma generate_results calca calcb :
  result <$> Calculation.generate calca calcb
  = (Calculation.operations (result calca `max` result calcb)
                            (result calca `min` result calcb)).*1.
Proof.
  rewrite generate_unfold.
  destruct (ordered_operands_results calca calcb) as [-> ->].
  rewrite <-list_fmap_compose. by apply list_fmap_ext.
Qed.

Lemma operations_length x y : (1 ≤ length (Calculation.operations x y) ≤ 4)%nat.
Proof.
  unfold Calculation.operations. rewrite !length_app.
  repeat match goal with |- context [if ?b then _ else _] => destruct b end; simpl; lia.
Qed.
End generate_more.

(** ** The groups of single numbers *)

Section singletons.
Implicit Types idx : Index.
Implicit Types all_numbers : list Z.

Lemma unique_groups_singletons all_numbers idx key g :
  Solutions.unique_groups all_numbers = Some idx → (key, g) ∈ idx →
  ∀ n, key = [n] → g.(calculations) = [Calculation.singleton n].
Proof.
  intros Hidx. revert key g. unfold Solutions.unique_groups in Hidx.
  eapply (groups_loop_inv (λ idx, ∀ key g, (key, g) ∈ idx →
            ∀ n, key = [n] → g.(calculations) = [Calculation.singleton n]));
    [|by intros ?? ?%elem_of_nil|exact Hidx].
  intros idx0 nums g Hinv _ _ Hnew key g' [Hin|[= -> ->]%list_elem_of_singleton]%elem_of_app n ->;
    [by eapply Hinv|].
  apply init_fields in Hnew as (_ & _ & _ & Hc). by injection Hc as <-.
Qed.

(** The singleton of every input number is walked. *)
Lemma singleton_walked all_numbers idx n :
  Solutions.unique_groups all_numbers = Some idx → n ∈ all_numbers →
  Calculation.singleton n ∈ Solutions.walk idx.
Proof.
  intros Hidx Hn.
  destruct (unique_groups_total all_numbers) as (idx' & Hidx' & Hcov).
  assert (idx' = idx) as -> by congruence.
  assert ([n] ∈ idx.*1) as ([key g] & Hkey & Hin)%list_elem_of_fmap.
  { apply list_elem_of_split in Hn as (l1 & l2 & Hsplit). apply Hcov.
    - rewrite Hsplit. apply sublist_inserts_l, sublist_skip, sublist_nil_l.
    - rewrite Hsplit, length_app. simpl. lia. }
  simpl in Hkey. subst key. apply elem_of_walk. exists [n], g. split; [done|].
  rewrite (unique_groups_singletons _ _ _ _ Hidx Hin n eq_refl). left.
Qed.
End singletons.

(** ** The search, when a calculation is close enough *)

Section search_more.
Implicit Types calcs : list Calculation.

Lemma least_difference_attained target init calcs :
  least_difference target init calcs = init
  ∨ ∃ c, c ∈ calcs ∧ difference target c = least_difference target init calcs.
Proof.
  revert init. induction calcs as [|c calcs IH]; intros init; [by left|].
  change (least_difference target init (c :: calcs))
    with (least_difference target (init `min` difference target c) calcs).
  destruct (IH (init `min` difference target c)) as [Heq|(c' & Hin & Hc')].
  - destruct (Z.min_spec init (difference target c)) as [[_ Hm]|[_ Hm]].
    + left. by rewrite Heq.
    + right. exists c. split; [left|]. by rewrite Heq.
  - right. exists c'. split; [by right|done].
Qed.

(** If some calculation differs from the target by at most the target,
    the least difference is attained by a calculation. *)
Lemma least_difference_exact target calcs c :
  c ∈ calcs → difference target c ≤ target →
  ∃ c', c' ∈ calcs ∧ difference target c' = least_difference target target calcs.
Proof.
  intros Hin Hle.
  destruct (least_difference_attained target target calcs) as [Heq|?]; [|done].
  exists c. split; [done|].
  pose proof (least_difference_lower target target calcs c Hin). lia.
Qed.
End search_more.

(** ** Further lemmas on the dictionary *)

Section index_more.
Implicit Types idx : Index.
Implicit Types all_numbers key : list Z.

Lemma sublist_same_length {A} (l k : list A) :
  l `sublist_of` k → (length k ≤ length l)%nat → l = k.
Proof.
  induction 1 as [|x l k Hs IH|x l k Hs IH]; simpl; intros Hlen; [done|..].
  - f_equal. apply IH. lia.
  - apply sublist_length in Hs. lia.
Qed.

Lemma index_get_None idx key : index_get idx key = None ↔ key ∉ idx.*1.
Proof. rewrite <-index_get_is_Some, eq_None_not_Some. done. Qed.

Lemma index_get_NoDup idx key g :
  NoDup idx.*1 → (key, g) ∈ idx → index_get idx key = Some g.
Proof.
  induction idx as [|[k g'] idx IH]; simpl; [by intros _ ?%elem_of_nil|].
  rewrite NoDup_cons. intros [Hnin Hnd] [[= -> ->]|Hin]%elem_of_cons.
  - by rewrite decide_True.
  - rewrite decide_False; [by apply IH|].
    intros ->. apply Hnin. apply list_elem_of_fmap. by exists (key, g).
Qed.

(** The keys of the dictionary are the non-empty subsequences of the
    input. *)
Lemma unique_groups_keys all_numbers idx key :
  Solutions.unique_groups all_numbers = Some idx →
  key ∈ idx.*1 ↔ key ≠ [] ∧ key `sublist_of` all_numbers.
Proof.
  intros Hidx.
  destruct (unique_groups_total all_numbers) as (idx' & Hidx' & Hcov).
  assert (idx' = idx) as -> by congruence.
  pose proof (unique_groups_wf _ _ Hidx) as [_ Hwf _]. split.
  - intros ([k g] & -> & Hin)%list_elem_of_fmap. by destruct (Hwf _ _ Hin).
  - intros [Hne Hsub]. apply Hcov; [done|]. split.
    + destruct key; [done|simpl; lia].
    + by apply sublist_length.
Qed.

Lemma unique_groups_lengths all_numbers idx :
  Solutions.unique_groups all_numbers = Some idx →
  StronglySorted le (length <$> idx.*1).
Proof.
  intros Hidx.
  eapply (groups_loop_sizes_lengths all_numbers _ 0 []); [constructor..|exact Hidx].
Qed.
End index_more.

(** ** Counting combinations *)

Section counting.
Local Open Scope nat_scope.

Lemma combinations_length {A} (l : list A) m :
  length (combinations l m) = binom (length l) m.
Proof.
  revert m. induction l as [|x l IH]; intros [|m]; simpl; try done.
  by rewrite length_app, length_fmap, !IH.
Qed.

Lemma binom_diag n : binom n n = 1.
Proof. induction n as [|n IH]; simpl; [done|]. rewrite IH, binom_gt by lia. done. Qed.

(** [C(n, k) = C(n, n - k)], from the step of the product on both sides. *)
Lemma binom_sym n k : k ≤ n → binom n k = binom n (n - k).
Proof.
  induction k as [|k IH]; intros Hk.
  - by rewrite Nat.sub_0_r, binom_0_r, binom_diag.
  - pose proof (binom_step n k) as H1.
    pose proof (binom_step n (n - S k)) as H2.
    replace (S (n - S k)) with (n - k) in H2 by lia.
    replace (n - (n - S k)) with (S k) in H2 by lia.
    rewrite <-IH in H2 by lia. nia.
Qed.

Lemma binom_pos n k : k ≤ n → 1 ≤ binom n k.
Proof.
  revert k. induction n as [|n IH]; intros [|k] Hk; simpl; try lia.
  pose proof (IH k). lia.
Qed.

(** Half of the central coefficient: [C(2m, m) = 2 C(2m - 1, m - 1)]. *)
Lemma binom_central m :
  1 ≤ m → binom (2 * m) m = 2 * binom (2 * m - 1) (m - 1).
Proof.
  intros Hm. replace (2 * m) with (S (2 * m - 1)) at 1 by lia.
  replace m with (S (m - 1)) at 2 by lia.
  change (binom (S (2 * m - 1)) (S (m - 1)))
    with (binom (2 * m - 1) (m - 1) + binom (2 * m - 1) (S (m - 1))).
  rewrite (binom_sym (2 * m - 1) (S (m - 1))) by lia.
  replace (2 * m - 1 - S (m - 1)) with (m - 1) by lia. lia.
Qed.
End counting.

(** ** [halfbinom] beyond [1 <= k <= n] *)

Section halfbinom_more.

Lemma halfbinom_steps_snoc n j :
  0 ≤ j →
  Group.halfbinom_steps n (j + 1) = Group.halfbinom_steps n j ++ [(n - j, j + 1)].
Proof.
  intros Hj. unfold Group.halfbinom_steps.
  replace (n + 1 - (j + 1)) with (n - j) by lia.
  rewrite (range_cons (n - j)) by lia. rewrite reverse_cons.
  replace (n - j + 1) with (n + 1 - j) by lia.
  rewrite (range_snoc 1 (j + 1)) by lia.
  rewrite zip_with_app; [done|].
  rewrite length_reverse, !range_length. lia.
Qed.

Lemma halfbinom_steps_nonpos n k : k ≤ 0 → Group.halfbinom_steps n k = [].
Proof.
  intros Hk. unfold Group.halfbinom_steps.
  rewrite (range_nil 1) by lia. by destruct (reverse _).
Qed.

(** The loop holds [C(n, j)] after any number of iterations, also beyond
    [n], where it has reached 0. *)
Lemma halfbinom_loop_binom_any (n j : nat) :
  Group.halfbinom_loop (Group.halfbinom_steps (Z.of_nat n) (Z.of_nat j)) = Z.of_nat (binom n j).
Proof.
  induction j as [|j IH].
  - rewrite halfbinom_steps_nonpos by lia. by rewrite binom_0_r.
  - rewrite Nat2Z.inj_succ, <-Z.add_1_r, halfbinom_steps_snoc by lia.
    rewrite halfbinom_loop_snoc, IH.
    destruct (decide (j ≤ n)%nat) as [Hle|Hgt].
    + pose proof (binom_step n j) as Hs.
      replace (Z.of_nat (binom n j) * (Z.of_nat n - Z.of_nat j))
        with (Z.of_nat (binom n (S j)) * (Z.of_nat j + 1)) by nia.
      apply Z.div_mul. lia.
    + rewrite !binom_gt by lia. done.
Qed.
End halfbinom_more.

(** ** The limit of [paired_combinations] *)

Section paired.
Implicit Types nums : list Z.
Implicit Types combs : list (list Z).

Lemma paired_loop_None nums cnt combs :
  Group.paired_loop nums None cnt combs = (λ c, (c, Group.filtering nums c)) <$> combs.
Proof.
  revert cnt. induction combs as [|c combs IH]; intros cnt; [done|].
  cbn [Group.paired_loop]. rewrite bool_decide_eq_false_2 by done. by rewrite IH.
Qed.

Lemma paired_loop_passed nums lim cnt combs :
  lim < cnt →
  Group.paired_loop nums (Some lim) cnt combs = (λ c, (c, Group.filtering nums c)) <$> combs.
Proof.
  revert cnt. induction combs as [|c combs IH]; intros cnt Hlt; [done|].
  cbn [Group.paired_loop]. rewrite bool_decide_eq_false_2 by (intros [= ?]; lia).
  rewrite IH by lia. done.
Qed.

Lemma paired_loop_take nums lim cnt combs :
  cnt ≤ lim →
  Group.paired_loop nums (Some lim) cnt combs
  = (λ c, (c, Group.filtering nums c)) <$> take (Z.to_nat (lim - cnt + 1)) combs.
Proof.
  revert cnt. induction combs as [|c combs IH]; intros cnt Hle.
  { by rewrite take_nil. }
  replace (Z.to_nat (lim - cnt + 1)) with (S (Z.to_nat (lim - cnt))) by lia.
  cbn [Group.paired_loop take]. rewrite fmap_cons. f_equal.
  destruct (decide (cnt = lim)) as [->|Hne].
  - rewrite bool_decide_eq_true_2 by done. by rewrite Z.sub_diag.
  - rewrite bool_decide_eq_false_2 by congruence. rewrite IH by lia.
    by replace (lim - (cnt + 1) + 1) with (lim - cnt) by lia.
Qed.

Lemma paired_combinations_eq nums m limit :
  Group.paired_combinations nums m limit
  = (λ c, (c, Group.filtering nums c)) <$>
      match limit with
      | Some lim =>
          if bool_decide (1 ≤ lim) then take (Z.to_nat lim) (combinations nums m)
          else combinations nums m
      | None => combinations nums m
      end.
Proof.
  unfold Group.paired_combinations. destruct limit as [lim|]; [|apply paired_loop_None].
  case_bool_decide.
  - rewrite paired_loop_take by done. by replace (lim - 1 + 1) with lim by lia.
  - apply paired_loop_passed. lia.
Qed.
End paired.

(** ** Every split of a group is stored *)

Section complete.
Implicit Types idx : Index.
Implicit Types nums all_numbers : list Z.
Implicit Types u : gset (list Z).

Lemma unique_loop_covered idx nums u combs u' out :
  Group.unique_loop idx u ((λ c, (c, Group.filtering nums c)) <$> combs) = Some (u', out) →
  (∀ c, c ∈ u' ↔ c ∈ u ∨ c ∈ combs)
  ∧ (∀ c, c ∈ combs → c ∉ u →
       ∃ A B, (A, B) ∈ out ∧ index_get idx c = Some A
         ∧ index_get idx (Group.filtering nums c) = Some B).
Proof.
  revert u out. induction combs as [|c0 combs IH]; intros u out.
  { intros [= <- <-]. split; [|by intros ? ?%elem_of_nil].
    intros c. rewrite elem_of_nil. tauto. }
  rewrite fmap_cons. cbn [Group.unique_loop]. case_bool_decide as Hc0.
  - intros Hl. destruct (IH _ _ Hl) as [Hu Hcov]. split.
    + intros c. rewrite Hu, elem_of_cons. split; [tauto|]. intros [?|[->|?]]; tauto.
    + intros c [->|Hc]%elem_of_cons Hnu; [done|]. by apply Hcov.
  - destruct (index_get idx c0) as [A|] eqn:HA; [|done].
    destruct (index_get idx (Group.filtering nums c0)) as [B|] eqn:HB; [|done].
    cbn [mbind option_bind].
    destruct (Group.unique_loop idx _ _) as [[u1 o1]|] eqn:Hl; [|done].
    cbn [mbind option_bind]. intros [= <- <-].
    destruct (IH _ _ Hl) as [Hu Hcov]. split.
    + intros c. rewrite Hu, elem_of_union, elem_of_singleton, elem_of_cons. tauto.
    + intros c [->|Hc]%elem_of_cons Hnu.
      * exists A, B. split; [left|done].
      * destruct (decide (c = c0)) as [->|Hne].
        { exists A, B. split; [left|done]. }
        destruct (Hcov c Hc) as (A' & B' & ? & ? & ?).
        { rewrite elem_of_union, elem_of_singleton. tauto. }
        exists A', B'. split; [by right|done].
Qed.

Lemma partition_loop_covered idx nums u ms out m lim c :
  Group.partition_loop idx nums u ms = Some out →
  (Some m, lim) ∈ ms →
  c ∈ match mjoin lim with
      | Some l =>
          if bool_decide (1 ≤ l) then take (Z.to_nat l) (combinations nums m)
          else combinations nums m
      | None => combinations nums m
      end →
  c ∉ u →
  ∃ A B, (A, B) ∈ out ∧ index_get idx c = Some A
    ∧ index_get idx (Group.filtering nums c) = Some B.
Proof.
  revert u out. induction ms as [|[[m0|] lim0] ms IH]; intros u out;
    [by intros _ ?%elem_of_nil| |done].
  cbn [Group.partition_loop]. rewrite paired_combinations_eq.
  destruct (Group.unique_loop idx u _) as [[u1 o1]|] eqn:Hl; [|done].
  cbn [mbind option_bind].
  destruct (Group.partition_loop idx nums u1 ms) as [o2|] eqn:Hp; [|done].
  cbn [mbind option_bind]. intros [= <-] Hin Hc Hnu.
  destruct (unique_loop_covered _ _ _ _ _ _ Hl) as [Hu Hcov].
  apply elem_of_cons in Hin as [[= <- <-]|Hin].
  - destruct (Hcov c Hc Hnu) as (A & B & ? & ? & ?).
    exists A, B. split; [apply elem_of_app; by left|done].
  - destruct (decide (c ∈ u1)) as [Hu1|Hu1].
    + apply Hu in Hu1 as [?|Hc0]; [done|].
      destruct (Hcov c Hc0 Hnu) as (A & B & ? & ? & ?).
      exists A, B. split; [apply elem_of_app; by left|done].
    + destruct (IH _ _ Hp Hin Hc Hu1) as (A & B & ? & ? & ?).
      exists A, B. split; [apply elem_of_app; by right|done].
Qed.

Lemma zip_longest_single {X Y} (a : X) (l : list X) (y : Y) :
  zip_longest (a :: l) [y] = (Some a, Some y) :: ((λ x, (Some x, None)) <$> l).
Proof. simpl. f_equal. induction l as [|x l IH]; simpl; [done|]. by rewrite IH. Qed.

(** A subsequence longer than half of the tuple is the first side of a
    stored pair. *)
Lemma covered_large idx nums out c :
  Group.partition_into_unique_pairs nums (length nums) idx = Some out →
  c `sublist_of` nums → (length nums < 2 * length c)%nat → (length c < length nums)%nat →
  ∃ A B, (A, B) ∈ out ∧ index_get idx c = Some A
    ∧ index_get idx (Group.filtering nums c) = Some B.
Proof.
  intros Hp Hsub Hhalf Hlt. unfold Group.partition_into_unique_pairs in Hp.
  rewrite decide_False in Hp by lia.
  set (h := ((length nums + 1) / 2)%nat) in *.
  assert (h < length nums)%nat as Hh by (apply Nat.Div0.div_lt_upper_bound; lia).
  assert (h ≤ length c)%nat as Hhc.
  { apply Nat.Div0.div_le_upper_bound. lia. }
  destruct (length nums - h)%nat as [|len] eqn:Hlen; [lia|].
  cbn [seq] in Hp. rewrite zip_longest_single in Hp.
  destruct (decide (length c = h)) as [Hch|Hch].
  - (* the tuple has odd length: the limit is [None] *)
    eapply (partition_loop_covered _ _ _ _ _ h _ c Hp); [left| |set_solver].
    assert (Group.halfbinom (Z.of_nat (length nums)) (Z.of_nat (length nums) `div` 2) = None)
      as ->.
    { unfold Group.halfbinom. rewrite bool_decide_eq_true_2; [done|].
      assert (length nums = 2 * h - 1)%nat as ->.
      { pose proof (Nat.div_mod_eq (length nums + 1) 2) as Hdm.
        pose proof (Nat.mod_upper_bound (length nums + 1) 2). fold h in Hdm. lia. }
      replace (Z.of_nat (2 * h - 1)) with (1 + (Z.of_nat h - 1) * 2) by lia.
      by rewrite Z_mod_plus_full. }
    simpl. by apply elem_of_combinations.
  - eapply (partition_loop_covered _ _ _ _ _ (length c) None c Hp); [right| |set_solver].
    + apply list_elem_of_fmap. exists (length c). split; [done|].
      apply elem_of_seq. lia.
    + simpl. by apply elem_of_combinations.
Qed.

(** When the tuple has even length, a subsequence of half its length that
    starts with its first number is the first side of a stored pair. *)
Lemma covered_half idx x xs out c :
  Group.partition_into_unique_pairs (x :: xs) (length (x :: xs)) idx = Some out →
  c `sublist_of` xs → (2 * S (length c) = length (x :: xs))%nat →
  ∃ A B, (A, B) ∈ out ∧ index_get idx (x :: c) = Some A
    ∧ index_get idx (Group.filtering (x :: xs) (x :: c)) = Some B.
Proof.
  intros Hp Hsub Hhalf. unfold Group.partition_into_unique_pairs in Hp.
  set (m := S (length c)) in *.
  assert (length (x :: xs) = 2 * m)%nat as Hlen by lia.
  rewrite Hlen in Hp. rewrite decide_False in Hp by lia.
  assert ((2 * m + 1) / 2 = m)%nat as Hh.
  { symmetry. apply (Nat.div_unique _ 2 m 1); lia. }
  rewrite Hh in Hp.
  replace (2 * m - m)%nat with (S (m - 1)) in Hp by lia.
  cbn [seq] in Hp. rewrite zip_longest_single in Hp.
  eapply (partition_loop_covered _ _ _ _ _ m _ (x :: c) Hp); [left| |set_solver].
  assert (Group.halfbinom (Z.of_nat (2 * m)) (Z.of_nat (2 * m) `div` 2)
          = Some (Z.of_nat (binom (2 * m - 1) (m - 1)))) as ->.
  { unfold Group.halfbinom. rewrite bool_decide_eq_false_2.
    2:{ rewrite Nat2Z.inj_mul, Z.mul_comm, Z_mod_mult. done. }
    replace (Z.of_nat (2 * m) `div` 2) with (Z.of_nat m).
    2:{ rewrite Nat2Z.inj_mul, Z.mul_comm, Z.div_mul; lia. }
    rewrite halfbinom_loop_binom_any, binom_central by lia.
    rewrite Nat2Z.inj_mul, Z.mul_comm, Z.div_mul; [done|lia]. }
  cbn [mjoin option_join]. 
  pose proof (binom_pos (2 * m - 1) (m - 1)) as Hpos.
  rewrite bool_decide_eq_true_2 by lia. rewrite Nat2Z.id.
  unfold m at 3. cbn [combinations].
  assert (length xs = 2 * m - 1)%nat as Hxs by (simpl in Hlen; lia).
  rewrite take_app_length'.
  2:{ rewrite length_fmap, combinations_length, Hxs. f_equal. lia. }
  apply list_elem_of_fmap. exists c. split; [done|]. by apply elem_of_combinations.
Qed.
End complete.

Section complete_splits.
Implicit Types idx : Index.
Implicit Types nums all_numbers : list Z.

(** A multiset taken out of a tuple is the content of a subsequence, and
    [filtering] leaves the rest. *)
Lemma split_sublist nums X Y :
  X ++ Y ≡ₚ nums →
  ∃ c, c `sublist_of` nums ∧ c ≡ₚ X ∧ Group.filtering nums c ≡ₚ Y.
Proof.
  intros Hperm.
  assert (X ⊆+ nums) as (c & Hc & Hsub)%submseteq_sublist_r.
  { rewrite <-Hperm. apply submseteq_inserts_r. done. }
  exists c. split_and!; [done|done|].
  apply (Permutation_app_inv_l c). rewrite (filtering_Permutation _ _ Hsub).
  by rewrite <-Hc, Hperm.
Qed.

Lemma partition_complete idx nums out X Y :
  (∀ key A, index_get idx key = Some A → A.(numbers) = key) →
  Group.partition_into_unique_pairs nums (length nums) idx = Some out →
  X ≠ [] → Y ≠ [] → X ++ Y ≡ₚ nums →
  ∃ A B, (A, B) ∈ out
    ∧ ((A.(numbers) ≡ₚ X ∧ B.(numbers) ≡ₚ Y) ∨ (A.(numbers) ≡ₚ Y ∧ B.(numbers) ≡ₚ X)).
Proof.
  intros Hkeys Hp HX HY Hperm.
  assert (length X + length Y = length nums)%nat as Hlen.
  { by rewrite <-length_app, Hperm. }
  assert (0 < length X ∧ 0 < length Y)%nat as [HlX HlY].
  { destruct X, Y; simpl; try done; lia. }
  assert (∀ X Y, X ++ Y ≡ₚ nums → (length Y < length X)%nat → (0 < length Y)%nat →
    ∃ A B, (A, B) ∈ out ∧ A.(numbers) ≡ₚ X ∧ B.(numbers) ≡ₚ Y) as Hlarge.
  { intros X' Y' Hperm' Hlt Hpos.
    assert (length X' + length Y' = length nums)%nat as Hlen'.
    { by rewrite <-length_app, Hperm'. }
    destruct (split_sublist _ _ _ Hperm') as (c & Hsub & Hc & Hf).
    pose proof (Permutation_length Hc) as Hlc.
    destruct (covered_large idx nums out c Hp Hsub) as (A & B & Hin & HA & HB); [lia..|].
    exists A, B. split; [done|]. by rewrite (Hkeys _ _ HA), (Hkeys _ _ HB). }
  assert (∀ X Y x xs, nums = x :: xs → X ++ Y ≡ₚ nums → length X = length Y → x ∈ X →
    ∃ A B, (A, B) ∈ out ∧ A.(numbers) ≡ₚ X ∧ B.(numbers) ≡ₚ Y) as Hhalf.
  { intros X' Y' x xs -> Hperm' Heq Hx.
    assert (length X' + length Y' = length (x :: xs))%nat as Hlen'.
    { by rewrite <-length_app, Hperm'. }
    apply elem_of_Permutation in Hx as [X'' HX''].
    assert (X'' ++ Y' ≡ₚ xs) as Hperm''.
    { apply (Permutation_cons_inv (a := x)). by rewrite <-Hperm', HX''. }
    destruct (split_sublist _ _ _ Hperm'') as (c & Hsub & Hc & Hf).
    pose proof (Permutation_length Hc) as Hlc.
    pose proof (Permutation_length HX'') as HlX''. simpl in *.
    destruct (covered_half idx x xs out c Hp Hsub) as (A & B & Hin & HA & HB); [simpl; lia|].
    exists A, B. split; [done|]. rewrite (Hkeys _ _ HA), (Hkeys _ _ HB). split.
    - by rewrite HX'', Hc.
    - simpl. by rewrite bool_decide_eq_true_2. }
  destruct (Nat.lt_trichotomy (length X) (length Y)) as [Hlt|[Heq|Hgt]].
  - destruct (Hlarge Y X) as (A & B & ? & ? & ?); [by rewrite Permutation_app_comm|done..|].
    exists A, B. split; [done|]. by right.
  - destruct nums as [|x xs]; [simpl in Hlen; lia|].
    assert (x ∈ X ++ Y) as [Hx|Hx]%elem_of_app by (rewrite Hperm; left).
    + destruct (Hhalf X Y x xs) as (A & B & ? & ? & ?); [done..|].
      exists A, B. split; [done|]. by left.
    + destruct (Hhalf Y X x xs) as (A & B & ? & ? & ?);
        [done|by rewrite Permutation_app_comm|done..|].
      exists A, B. split; [done|]. by right.
  - destruct (Hlarge X Y) as (A & B & ? & ? & ?); [done..|].
    exists A, B. split; [done|]. by left.
Qed.

(** Every group of the dictionary stores every split of its tuple. *)
Lemma unique_groups_complete all_numbers idx :
  Solutions.unique_groups all_numbers = Some idx →
  ∀ key G X Y, (key, G) ∈ idx → X ≠ [] → Y ≠ [] → X ++ Y ≡ₚ key →
    ∃ A B, (A, B) ∈ G.(partitions)
      ∧ ((A.(numbers) ≡ₚ X ∧ B.(numbers) ≡ₚ Y) ∨ (A.(numbers) ≡ₚ Y ∧ B.(numbers) ≡ₚ X)).
Proof.
  intros Hidx.
  pose (Inv := λ idx : Index, index_wf all_numbers idx ∧
    ∀ key G X Y, (key, G) ∈ idx → X ≠ [] → Y ≠ [] → X ++ Y ≡ₚ key →
      ∃ A B, (A, B) ∈ G.(partitions)
        ∧ ((A.(numbers) ≡ₚ X ∧ B.(numbers) ≡ₚ Y) ∨ (A.(numbers) ≡ₚ Y ∧ B.(numbers) ≡ₚ X))).
  assert (Inv idx) as [_ ?]; [|done].
  unfold Solutions.unique_groups in Hidx.
  eapply (groups_loop_inv Inv); [|split; [apply index_wf_nil|by intros ???? ?%elem_of_nil]|exact Hidx].
  intros idx0 nums g [Hwf Hcomp] (m & [Hs Hl]%elem_of_combinations & Hm%elem_of_seq)%list_elem_of_bind
    Hfresh Hnew.
  split.
  { apply index_wf_snoc; [done..| |done|done]. intros ->. simpl in Hl. lia. }
  intros key G X Y [Hin|[= -> ->]%list_elem_of_singleton]%elem_of_app HX HY Hperm;
    [by eapply Hcomp|].
  apply init_fields in Hnew as (_ & _ & Hp & _).
  eapply partition_complete; [|done..].
  intros k A HA%index_get_elem_of. by destruct Hwf as [_ Hg _], (Hg _ _ HA).
Qed.
End complete_splits.

(** ** The first sides of the stored pairs *)

Section firsts.
Implicit Types idx : Index.
Implicit Types nums all_numbers : list Z.
Implicit Types u : gset (list Z).

Lemma unique_loop_firsts idx u pairs u' out :
  (∀ key A, index_get idx key = Some A → A.(numbers) = key) →
  Group.unique_loop idx u pairs = Some (u', out) →
  NoDup ((λ p, numbers p.1) <$> out)
  ∧ (∀ A B, (A, B) ∈ out → (numbers A ∉ u) ∧ (numbers A ∈ u'))
  ∧ u ⊆ u'.
Proof.
  intros Hkeys. revert u out. induction pairs as [|[c0 c1] pairs IH]; intros u out.
  { intros [= <- <-]. split_and!; [constructor|by intros ?? ?%elem_of_nil|done]. }
  cbn [Group.unique_loop]. case_bool_decide as Hc0; [apply IH|].
  destruct (index_get idx c0) as [A|] eqn:HA; [|done].
  destruct (index_get idx c1) as [B|] eqn:HB; [|done].
  cbn [mbind option_bind].
  destruct (Group.unique_loop idx _ pairs) as [[u1 o1]|] eqn:Hl; [|done].
  cbn [mbind option_bind]. intros [= <- <-].
  destruct (IH _ _ Hl) as (Hnd & Hout & Hsub).
  pose proof (Hkeys _ _ HA) as HnA.
  split_and!.
  - rewrite fmap_cons. simpl. apply NoDup_cons. split; [|done].
    intros ([A' B'] & Heq & Hin)%list_elem_of_fmap. simpl in Heq.
    destruct (Hout _ _ Hin) as [Hnin _]. apply Hnin. rewrite <-Heq, HnA. set_solver.
  - intros A' B' [[= -> ->]|Hin]%elem_of_cons.
    + rewrite HnA. split; [done|]. apply Hsub. set_solver.
    + destruct (Hout _ _ Hin) as [Hnin ?]. split; [set_solver|done].
  - set_solver.
Qed.

Lemma partition_loop_firsts idx nums u ms out :
  (∀ key A, index_get idx key = Some A → A.(numbers) = key) →
  Group.partition_loop idx nums u ms = Some out →
  NoDup ((λ p, numbers p.1) <$> out)
  ∧ (∀ A B, (A, B) ∈ out → numbers A ∉ u).
Proof.
  intros Hkeys. revert u out. induction ms as [|[[m|] lim] ms IH]; intros u out; [|..|done].
  { intros [= <-]. split; [constructor|by intros ?? ?%elem_of_nil]. }
  cbn [Group.partition_loop].
  destruct (Group.unique_loop idx u _) as [[u1 o1]|] eqn:Hl; [|done].
  cbn [mbind option_bind].
  destruct (Group.partition_loop idx nums u1 ms) as [o2|] eqn:Hp; [|done].
  cbn [mbind option_bind]. intros [= <-].
  destruct (unique_loop_firsts _ _ _ _ _ Hkeys Hl) as (Hnd1 & Hout1 & Hsub).
  destruct (IH _ _ Hp) as (Hnd2 & Hout2). split.
  - rewrite fmap_app. apply NoDup_app. split_and!; [done| |done].
    intros k ([A B] & -> & Hin1)%list_elem_of_fmap ([A' B'] & Heq & Hin2)%list_elem_of_fmap.
    simpl in *. destruct (Hout1 _ _ Hin1) as [_ Hu1]. apply (Hout2 _ _ Hin2).
    by rewrite <-Heq.
  - intros A B [Hin|Hin]%elem_of_app.
    + by destruct (Hout1 _ _ Hin).
    + intros Hu. apply (Hout2 _ _ Hin). by apply Hsub.
Qed.

(** No two stored pairs of a group have the same first side, and the
    first side is at least as long as the second. *)
Lemma unique_groups_firsts all_numbers idx :
  Solutions.unique_groups all_numbers = Some idx →
  ∀ key G, (key, G) ∈ idx →
    NoDup ((λ p, numbers p.1) <$> G.(partitions))
    ∧ ∀ A B, (A, B) ∈ G.(partitions) →
        (1 ≤ B.(size) ≤ A.(size))%nat ∧ (A.(size) < G.(size))%nat.
Proof.
  intros Hidx.
  pose (Inv := λ idx : Index, index_wf all_numbers idx ∧
    ∀ key G, (key, G) ∈ idx →
      NoDup ((λ p, numbers p.1) <$> G.(partitions))
      ∧ ∀ A B, (A, B) ∈ G.(partitions) →
          (1 ≤ B.(size) ≤ A.(size))%nat ∧ (A.(size) < G.(size))%nat).
  assert (Inv idx) as [_ ?]; [|done].
  unfold Solutions.unique_groups in Hidx.
  eapply (groups_loop_inv Inv); [|split; [apply index_wf_nil|by intros ?? ?%elem_of_nil]|exact Hidx].
  intros idx0 nums g [Hwf Hfirst] (m & [Hs Hl]%elem_of_combinations & Hm%elem_of_seq)%list_elem_of_bind
    Hfresh Hnew.
  split.
  { apply index_wf_snoc; [done..| |done|done]. intros ->. simpl in Hl. lia. }
  intros key G [Hin|[= -> ->]%list_elem_of_singleton]%elem_of_app; [by apply (Hfirst key)|].
  apply init_fields in Hnew as (_ & Hsize & Hp & _).
  assert (∀ k A, index_get idx0 k = Some A → A.(numbers) = k ∧ A.(size) = length k) as Hkeys.
  { intros k A HA%index_get_elem_of. by destruct Hwf as [_ Hg _], (Hg _ _ HA). }
  split.
  - revert Hp. unfold Group.partition_into_unique_pairs. case_decide.
    { intros [= <-]. constructor. }
    intros Hp. eapply partition_loop_firsts; [|done]. intros k A HA. by apply Hkeys.
  - intros A B HAB.
    destruct (partition_pairs_elem _ _ _ _ _ Hp HAB) as (n1 & Hsub & Hlen & HA & HB).
    destruct (Hkeys _ _ HA) as [_ ->]. destruct (Hkeys _ _ HB) as [_ ->].
    pose proof (filtering_length _ _ Hsub) as Hfl. rewrite Hsize.
    assert (length nums ≤ 2 * length n1)%nat.
    { destruct Hlen as [Hh _].
      pose proof (Nat.div_mod_eq (length nums + 1) 2) as Hdm.
      pose proof (Nat.mod_upper_bound (length nums + 1) 2). lia. }
    lia.
Qed.
End firsts.

(** ** A group depends on its tuple only *)

Section reuse.
Implicit Types idx ext : Index.
Implicit Types nums all_numbers : list Z.
Implicit Types u : gset (list Z).

Lemma unique_loop_ext idx idx' u pairs :
  (∀ c d, (c, d) ∈ pairs →
     index_get idx c = index_get idx' c ∧ index_get idx d = index_get idx' d) →
  Group.unique_loop idx u pairs = Group.unique_loop idx' u pairs.
Proof.
  revert u. induction pairs as [|[c d] pairs IH]; intros u Hagree; [done|].
  cbn [Group.unique_loop].
  assert (∀ u', Group.unique_loop idx u' pairs = Group.unique_loop idx' u' pairs) as Hrest.
  { intros u'. apply IH. intros ???. apply Hagree. by right. }
  destruct (Hagree c d) as [-> ->]; [left|]. by rewrite !Hrest.
Qed.

Lemma partition_loop_ext idx idx' nums u ms :
  (∀ m lim c, (Some m, lim) ∈ ms → c ∈ combinations nums m →
     index_get idx c = index_get idx' c
     ∧ index_get idx (Group.filtering nums c) = index_get idx' (Group.filtering nums c)) →
  Group.partition_loop idx nums u ms = Group.partition_loop idx' nums u ms.
Proof.
  revert u. induction ms as [|[[m|] lim] ms IH]; intros u Hagree; [done| |done].
  cbn [Group.partition_loop].
  rewrite (unique_loop_ext idx idx').
  2:{ intros c d [Hc ->]%paired_loop_elem. apply (Hagree m lim); [left|done]. }
  destruct (Group.unique_loop idx' u _) as [[u1 o1]|]; [|done].
  cbn [mbind option_bind]. rewrite IH; [done|].
  intros m' lim' c ??. apply (Hagree m' lim'); [by right|done].
Qed.

(** [Group(numbers, all_groups)] reads the dictionary only at tuples that
    are shorter, non-empty subsequences of [numbers]. *)
Lemma init_ext idx idx' nums :
  (∀ n, n `sublist_of` nums → n ≠ [] → (length n < length nums)%nat →
     index_get idx n = index_get idx' n) →
  Group.__init__ nums idx = Group.__init__ nums idx'.
Proof.
  intros Hagree. unfold Group.__init__.
  assert (Group.partition_into_unique_pairs nums (length nums) idx
          = Group.partition_into_unique_pairs nums (length nums) idx') as ->; [|done].
  unfold Group.partition_into_unique_pairs. case_decide as Hone; [done|].
  apply partition_loop_ext. intros m lim c Hm [Hsub Hlen]%elem_of_combinations.
  destruct (decide (length nums = 0)%nat) as [Hz|Hz].
  { rewrite Hz in Hm. simpl in Hm. by apply list_elem_of_singleton in Hm. }
  assert ((length nums + 1) / 2 < length nums)%nat as Hhalf.
  { apply Nat.Div0.div_lt_upper_bound. lia. }
  assert (1 ≤ (length nums + 1) / 2)%nat as Hhalf'.
  { apply Nat.div_le_lower_bound; lia. }
  apply zip_longest_fst in Hm as (m' & lim' & [= <- <-] & Hm%elem_of_seq).
  2:{ rewrite length_seq. change (length [_]) with 1%nat. lia. }
  pose proof (filtering_length _ _ Hsub) as Hfl.
  split; apply Hagree.
  - done.
  - intros ->. simpl in Hlen. lia.
  - lia.
  - apply filtering_sublist.
  - intros Hnil. rewrite Hnil in Hfl. simpl in Hfl. lia.
  - lia.
Qed.

Lemma unique_loop_stable idx ext u pairs r :
  Group.unique_loop idx u pairs = Some r →
  Group.unique_loop (idx ++ ext) u pairs = Some r.
Proof.
  revert u r. induction pairs as [|[c d] pairs IH]; intros u r; [done|].
  cbn [Group.unique_loop]. case_bool_decide; [apply IH|].
  destruct (index_get idx c) as [A|] eqn:HA; [|done].
  destruct (index_get idx d) as [B|] eqn:HB; [|done].
  rewrite !index_get_app_l, HA, HB by (by rewrite ?HA, ?HB).
  cbn [mbind option_bind].
  destruct (Group.unique_loop idx _ pairs) as [r1|] eqn:Hl; [|done].
  by rewrite (IH _ _ Hl).
Qed.

Lemma partition_loop_stable idx ext nums u ms out :
  Group.partition_loop idx nums u ms = Some out →
  Group.partition_loop (idx ++ ext) nums u ms = Some out.
Proof.
  revert u out. induction ms as [|[[m|] lim] ms IH]; intros u out; [done| |done].
  cbn [Group.partition_loop].
  destruct (Group.unique_loop idx u _) as [[u1 o1]|] eqn:Hl; [|done].
  rewrite (unique_loop_stable _ ext _ _ _ Hl). cbn [mbind option_bind].
  destruct (Group.partition_loop idx nums u1 ms) as [o2|] eqn:Hp; [|done].
  by rewrite (IH _ _ Hp).
Qed.

(** A group built once is what would be built against any later state of
    the dictionary. *)
Lemma init_stable idx ext nums g :
  Group.__init__ nums idx = Some g → Group.__init__ nums (idx ++ ext) = Some g.
Proof.
  unfold Group.__init__, Group.partition_into_unique_pairs.
  case_decide; [done|].
  destruct (Group.partition_loop idx nums ∅ _) as [ps|] eqn:Hp; [|done].
  by rewrite (partition_loop_stable _ ext _ _ _ _ Hp).
Qed.

Lemma unique_groups_reinit all_numbers idx key g :
  Solutions.unique_groups all_numbers = Some idx → (key, g) ∈ idx →
  Group.__init__ key idx = Some g.
Proof.
  intros Hidx. revert key g. unfold Solutions.unique_groups in Hidx.
  eapply (groups_loop_inv (λ idx, ∀ key g, (key, g) ∈ idx → Group.__init__ key idx = Some g));
    [|by intros ?? ?%elem_of_nil|exact Hidx].
  intros idx0 nums g Hinv _ _ Hnew key g' [Hin|[= -> ->]%list_elem_of_singleton]%elem_of_app;
    apply init_stable; [by apply Hinv|done].
Qed.

(** The group of a tuple is the same in the dictionary of every input of
    which the tuple is a subsequence. *)
Lemma unique_groups_reuse all_numbers key idx idx' :
  Solutions.unique_groups all_numbers = Some idx →
  Solutions.unique_groups key = Some idx' →
  key `sublist_of` all_numbers →
  ∀ s, s `sublist_of` key → s ≠ [] → index_get idx s = index_get idx' s.
Proof.
  intros Hidx Hidx' Hsub s. remember (length s) as n eqn:Hn.
  revert s Hn. induction (lt_wf n) as [n _ IH]. intros s -> Hs Hne.
  assert (is_Some (index_get idx s)) as [g Hg].
  { apply index_get_is_Some, (unique_groups_keys _ _ _ Hidx). split; [done|].
    by transitivity key. }
  assert (is_Some (index_get idx' s)) as [g' Hg'].
  { by apply index_get_is_Some, (unique_groups_keys _ _ _ Hidx'). }
  rewrite Hg, Hg'.
  rewrite <-(unique_groups_reinit _ _ _ _ Hidx (index_get_elem_of _ _ _ Hg)).
  rewrite <-(unique_groups_reinit _ _ _ _ Hidx' (index_get_elem_of _ _ _ Hg')).
  apply init_ext. intros n Hns Hnne Hlen.
  apply (IH (length n)); [done..| |done]. by transitivity s.
Qed.
End reuse.

(** ** The results of a group are the reachable values *)

Section reachable.
Implicit Types idx : Index.
Implicit Types nums all_numbers key : list Z.

Lemma reachable_nonempty nums v : reachable nums v → nums ≠ [].
Proof.
  induction 1 as [n|X Y nums x y r op _ HX _ _ Hperm _]; [done|].
  intros ->. apply Permutation_nil_r in Hperm. by destruct X.
Qed.

Lemma reachable_Permutation nums nums' v :
  nums ≡ₚ nums' → reachable nums v → reachable nums' v.
Proof.
  intros Hperm Hr. destruct Hr as [n|X Y nums x y r op HX HY HXY Hop].
  - apply Permutation_singleton_l in Hperm. subst nums'. constructor.
  - eapply (reachable_operation X Y); [exact HX|exact HY| |exact Hop]. by rewrite HXY.
Qed.

Lemma group_calculations all_numbers idx key G :
  Solutions.unique_groups all_numbers = Some idx → (key, G) ∈ idx →
  Group.perform_calculations key (length key) G.(partitions) = Some G.(calculations).
Proof.
  intros Hidx Hin.
  pose proof (unique_groups_reinit _ _ _ _ Hidx Hin) as Hinit.
  by apply init_fields in Hinit as (_ & _ & _ & ?).
Qed.

(** Every result of a group is reachable from its tuple. *)
Lemma results_reachable all_numbers idx key G c :
  Solutions.unique_groups all_numbers = Some idx → (key, G) ∈ idx →
  c ∈ G.(calculations) → reachable key (result c).
Proof.
  intros Hidx. pose proof (unique_groups_wf _ _ Hidx) as [_ Hwf Hcl].
  remember (length key) as n eqn:Hn. revert key G c Hn.
  induction (lt_wf n) as [n _ IH]. intros key G c -> Hin Hc.
  pose proof (group_calculations _ _ _ _ Hidx Hin) as Hcalc.
  unfold Group.perform_calculations in Hcalc. case_decide as Hone.
  - destruct key as [|k [|??]]; try done. simpl in Hcalc. injection Hcalc as Hcalc.
    rewrite <-Hcalc in Hc. apply list_elem_of_singleton in Hc as ->. constructor.
  - injection Hcalc as Hcalc. rewrite <-Hcalc in Hc.
    apply list_elem_of_bind in Hc as ([A B] & Hc & HAB).
    apply list_elem_of_bind in Hc as ([c1 c2] & Hc & [H1 H2]%product_elem).
    destruct (Hwf _ _ Hin) as [HGn HGs _ _ Hparts _ _].
    destruct (Hparts _ _ HAB) as (Hsz & Hperm & _).
    destruct (Hcl _ _ _ _ Hin HAB) as [HA HB].
    destruct (Hwf _ _ HA) as [_ HAs _ HAne _ _ _].
    destruct (Hwf _ _ HB) as [_ HBs _ HBne _ _ _].
    assert (0 < length (numbers A) ∧ 0 < length (numbers B))%nat as [??].
    { destruct (numbers A), (numbers B); simpl; try done; lia. }
    rewrite HGn in Hperm. pose proof (Permutation_length Hperm) as Hlen.
    rewrite length_app in Hlen.
    assert (result c ∈ result <$> Calculation.generate c1 c2) as Hr
      by (by apply list_elem_of_fmap_2).
    rewrite generate_results in Hr.
    apply list_elem_of_fmap in Hr as ([r op] & -> & Hop).
    eapply (reachable_operation (numbers A) (numbers B)); [| |done|exact Hop].
    + eapply (IH (length (numbers A))); [lia|done|done|done].
    + eapply (IH (length (numbers B))); [lia|done|done|done].
Qed.

(** Every value reachable from the tuple of a group is a result of the
    group. *)
Lemma reachable_results all_numbers idx nums v :
  Solutions.unique_groups all_numbers = Some idx → reachable nums v →
  ∀ key G, (key, G) ∈ idx → key ≡ₚ nums → v ∈ result <$> G.(calculations).
Proof.
  intros Hidx. pose proof (unique_groups_wf _ _ Hidx) as [_ Hwf Hcl].
  induction 1 as [n|X Y nums x y r op HX IHX HY IHY HXY Hop]; intros key G Hin Hperm.
  - apply Permutation_singleton_r in Hperm. subst key.
    rewrite (unique_groups_singletons _ _ _ _ Hidx Hin n eq_refl). simpl. left.
  - pose proof (group_calculations _ _ _ _ Hidx Hin) as Hcalc.
    pose proof (reachable_nonempty _ _ HX) as HXne.
    pose proof (reachable_nonempty _ _ HY) as HYne.
    assert (length key ≠ 1%nat) as Hone.
    { rewrite Hperm, <-HXY, length_app. destruct X, Y; simpl; try done; lia. }
    unfold Group.perform_calculations in Hcalc. rewrite decide_False in Hcalc by done.
    injection Hcalc as Hcalc.
    destruct (unique_groups_complete _ _ Hidx key G X Y Hin HXne HYne)
      as (A & B & HAB & Hsides); [by rewrite HXY|].
    destruct (Hcl _ _ _ _ Hin HAB) as [HA HB].
    assert (∃ c1 c2, c1 ∈ calculations A ∧ c2 ∈ calculations B
              ∧ result c1 `max` result c2 = x `max` y
              ∧ result c1 `min` result c2 = x `min` y) as (c1 & c2 & H1 & H2 & Hmax & Hmin).
    { destruct Hsides as [[HAX HBY]|[HAY HBX]].
      - apply (IHX _ _ HA) in HAX as (c1 & -> & ?)%list_elem_of_fmap.
        apply (IHY _ _ HB) in HBY as (c2 & -> & ?)%list_elem_of_fmap.
        by exists c1, c2.
      - apply (IHY _ _ HA) in HAY as (c1 & -> & ?)%list_elem_of_fmap.
        apply (IHX _ _ HB) in HBX as (c2 & -> & ?)%list_elem_of_fmap.
        exists c1, c2. split_and!; [done|done|lia|lia]. }
    assert (r ∈ result <$> Calculation.generate c1 c2) as (c & -> & Hc)%list_elem_of_fmap.
    { rewrite generate_results, Hmax, Hmin. apply list_elem_of_fmap. by exists (r, op). }
    apply list_elem_of_fmap_2. rewrite <-Hcalc.
    apply list_elem_of_bind. exists (A, B). split; [|done].
    apply list_elem_of_bind. exists (c1, c2). split; [done|]. by apply product_elem.
Qed.
End reachable.

Section walk_reachable.
Implicit Types idx : Index.
Implicit Types nums : list Z.

(** The values walked are those reachable from the non-empty
    sub-multisets of the input. *)
Lemma walk_results_reachable nums idx v :
  Solutions.unique_groups nums = Some idx →
  v ∈ result <$> Solutions.walk idx ↔ ∃ s, s ≠ [] ∧ s ⊆+ nums ∧ reachable s v.
Proof.
  intros Hidx. split.
  - intros (c & -> & (key & G & Hin & Hc)%elem_of_walk)%list_elem_of_fmap.
    assert (key ∈ idx.*1) as [Hne Hsub]%(unique_groups_keys _ _ _ Hidx).
    { apply list_elem_of_fmap. by exists (key, G). }
    exists key. split_and!; [done|by apply sublist_submseteq|].
    by eapply results_reachable.
  - intros (s & Hne & (key & Hkey & Hsub)%submseteq_sublist_r & Hr).
    assert (key ∈ idx.*1) as ([key' G] & -> & Hin)%list_elem_of_fmap.
    { apply (unique_groups_keys _ _ _ Hidx). split; [|done].
      intros ->. by apply Permutation_nil_r in Hkey. }
    simpl in *.
    pose proof (reachable_results _ _ _ _ Hidx Hr _ _ Hin (symmetry Hkey))
      as (c & -> & Hc)%list_elem_of_fmap.
    apply list_elem_of_fmap_2, elem_of_walk. by exists key', G.
Qed.
End walk_reachable.

(** ** The singleton flag *)

Section flag.
Implicit Types idx : Index.

Lemma generate_not_singleton calca calcb c :
  c ∈ Calculation.generate calca calcb → is_singleton c = false.
Proof. rewrite generate_unfold. by intros ([??] & -> & _)%list_elem_of_fmap. Qed.

Lemma generate_expr calca calcb c :
  c ∈ Calculation.generate calca calcb →
  ∃ op, op ∈ ["+"; "-"; "x"; "/"]
    ∧ expr c = (Calculation.operand (ordered_operands calca calcb).1 ++ " " ++ op ++ " "
                ++ Calculation.operand (ordered_operands calca calcb).2)%string.
Proof.
  rewrite generate_unfold. intros ([r op] & -> & Hop)%list_elem_of_fmap.
  exists op. split; [|done].
  apply elem_of_operations in Hop as [[-> _]|[[-> _]|[[-> _]|[-> _]]]];
    rewrite !elem_of_cons; tauto.
Qed.
End flag.

(** ** The cache over arbitrary calls *)

Section lru_more.
Context {V : Type} (f : Z → Z → V).
Implicit Types c : LruCache V.
Implicit Types calls : list (Z * Z).

Lemma distinct_snoc_le calls x :
  (distinct calls ≤ distinct (calls ++ [x]) ≤ S (distinct calls))%nat.
Proof.
  destruct (decide (x ∈ calls)).
  - rewrite distinct_snoc_elem by done. lia.
  - rewrite distinct_snoc_fresh by done. lia.
Qed.

Lemma distinct_NoDup calls (keys : list (Z * Z)) :
  NoDup keys → (∀ key, key ∈ keys ↔ key ∈ calls) → length keys = distinct calls.
Proof.
  intros Hnd Hsame. unfold distinct.
  rewrite <-(size_list_to_set (C := gset (Z * Z)) keys) by done.
  f_equal. apply set_eq. intros key. rewrite !elem_of_list_to_set. apply Hsame.
Qed.

Lemma lru_calls_any calls :
  let '(c, out) := lru_calls f lru_empty calls in
  out = (λ '(n, k), f n k) <$> calls
  ∧ (length (lru_entries c) ≤ lru_maxsize)%nat
  ∧ NoDup (lru_entries c).*1
  ∧ (∀ key v, (key, v) ∈ lru_entries c → key ∈ calls ∧ v = f key.1 key.2)
  ∧ (distinct calls ≤ lru_misses c ≤ length calls)%nat
  ∧ ((distinct calls ≤ lru_maxsize)%nat →
       lru_misses c = distinct calls ∧ ∀ key, key ∈ calls → key ∈ (lru_entries c).*1).
Proof.
  induction calls as [|[n k] calls IH] using rev_ind.
  { simpl. split_and!; try done.
    - unfold lru_maxsize. lia.
    - constructor.
    - by intros ?? ?%elem_of_nil. }
  rewrite lru_calls_snoc. destruct (lru_calls f lru_empty calls) as [c out].
  destruct IH as (Hout & Hlen & Hnd & Hent & Hmiss & Hsmall).
  pose proof (distinct_snoc_le calls (n, k)) as Hdist.
  unfold lru_call.
  destruct (list_find _ (lru_entries c)) as [[i [key v]]|] eqn:Hfind.
  - apply list_find_Some in Hfind as (Hi & Hkey & _). simpl in Hkey. subst key.
    pose proof (list_elem_of_lookup_2 _ _ _ Hi) as Hin.
    destruct (Hent _ _ Hin) as [Hcalled Hv]. simpl in Hv.
    assert ((lru_entries c).*1 ≡ₚ (n, k) :: (delete i (lru_entries c)).*1) as Hperm.
    { change ((n, k) :: (delete i (lru_entries c)).*1)
        with (((n, k, v) :: delete i (lru_entries c)).*1).
      apply fmap_Permutation. by apply delete_Permutation. }
    rewrite length_app, (distinct_snoc_elem _ _ Hcalled). simpl.
    split_and!.
    + by rewrite fmap_app, Hout, Hv.
    + rewrite length_delete by eauto. apply lookup_lt_Some in Hi. lia.
    + by rewrite <-Hperm.
    + intros key' v' [[= -> ->]|Hin']%elem_of_cons.
      * split; [|done]. apply elem_of_app. right. left.
      * assert ((key', v') ∈ lru_entries c) as [??]%Hent.
        { eapply sublist_subseteq; [apply sublist_delete|done]. }
        split; [|done]. apply elem_of_app. by left.
    + lia.
    + lia.
    + intros Hd. destruct (Hsmall Hd) as [-> Hall]. split; [done|].
      intros key' [Hk| ->%list_elem_of_singleton]%elem_of_app.
      * rewrite <-Hperm. by apply Hall.
      * left.
  - assert ((n, k) ∉ (lru_entries c).*1) as Hfresh.
    { intros ([key v] & Heq & Hin)%list_elem_of_fmap. simpl in Heq. subst key.
      eapply list_find_None, Forall_forall in Hfind; [|exact Hin]. by apply Hfind. }
    rewrite length_app. cbn [length lru_entries lru_misses fst snd].
    split_and!.
    + by rewrite fmap_app, Hout.
    + rewrite length_take. unfold lru_maxsize in *. lia.
    + rewrite fmap_take. eapply sublist_NoDup; [|apply sublist_take].
      rewrite fmap_cons. apply NoDup_cons. done.
    + intros key' v' Hin'%(sublist_subseteq _ _ (sublist_take _ _)).
      apply elem_of_cons in Hin' as [[= -> ->]|Hin'].
      * split; [|done]. apply elem_of_app. right. left.
      * destruct (Hent _ _ Hin'). split; [|done]. apply elem_of_app. by left.
    + lia.
    + lia.
    + intros Hd. destruct Hsmall as [Hm Hall]; [lia|].
      assert ((n, k) ∉ calls) as Hnew by (intros ?; by apply Hfresh, Hall).
      rewrite (distinct_snoc_fresh _ _ Hnew) in Hd |- *. split; [lia|].
      assert (length (lru_entries c).*1 = distinct calls) as Hsize.
      { apply distinct_NoDup; [done|]. intros key. split; [|apply Hall].
        intros ([key' v] & -> & Hin)%list_elem_of_fmap. by destruct (Hent _ _ Hin). }
      rewrite length_fmap in Hsize.
      rewrite take_ge by (simpl; lia).
      intros key' [Hk| ->%list_elem_of_singleton]%elem_of_app.
      * right. by apply Hall.
      * left.
Qed.
End lru_more.

(** ** The command line *)

Section command_line_lemmas.
Variable int : string → option Z.

Lemma mapM_Permutation {A B} (f : A → option B) (l l' : list A) :
  l ≡ₚ l' →
  match mapM f l, mapM f l' with
  | Some k, Some k' => k ≡ₚ k'
  | None, None => True
  | _, _ => False
  end.
Proof.
  induction 1 as [|x l l' _ IH|x y l|l1 l2 l3 _ IH1 _ IH2]; simpl.
  - done.
  - destruct (f x); simpl; [|done].
    destruct (mapM f l), (mapM f l'); simpl; try done. by constructor.
  - destruct (f x), (f y); simpl; try done;
      destruct (mapM f l); simpl; try done. apply perm_swap.
  - destruct (mapM f l1), (mapM f l2), (mapM f l3); try done. by etrans.
Qed.

Lemma read_arguments_six prog t nums rest :
  length nums = 6%nat →
  read_arguments int (prog :: t :: nums ++ rest)
  = target ← int t; unsorted_numbers ← mapM int nums; Some (target, unsorted_numbers).
Proof.
  intros Hlen. do 7 (destruct nums as [|? nums]; try done).
Qed.

Lemma read_arguments_None argv :
  read_arguments int argv = None
  ↔ ∃ i : nat, (1 ≤ i ≤ 7)%nat ∧ argv !! i ≫= int = None.
Proof.
  unfold read_arguments.
  change (mapM _ (range 0 6))
    with (mapM (λ i : nat, argv !! i ≫= int) [2; 3; 4; 5; 6; 7]%nat).
  match goal with |- context [mapM ?f ?l] => destruct (mapM f l) as [k|] eqn:Hk end;
    (destruct (argv !! 1%nat ≫= int) as [t|] eqn:Ht;
     [|split; [intros _|done]; exists 1%nat; split; [lia|done]]); simpl.
  - split; [done|]. intros (i & Hi & Hnone).
      apply mapM_Some_1 in Hk.
      assert (i = 1 ∨ i = 2 ∨ i = 3 ∨ i = 4 ∨ i = 5 ∨ i = 6 ∨ i = 7)%nat
        as Hcases by lia.
      repeat match goal with
             | H : Forall2 _ (_ :: _) _ |- _ => apply Forall2_cons_inv_l in H as (? & ? & ? & ? & ->)
             end.
      destruct Hcases as [->|[->|[->|[->|[->|[->| ->]]]]]]; congruence.
  - split; [intros _|done]. apply mapM_None_1 in Hk.
      rewrite !Exists_cons, Exists_nil in Hk.
      destruct Hk as [?|[?|[?|[?|[?|[?|[]]]]]]];
        [by exists 2%nat; split; [lia|]|by exists 3%nat; split; [lia|]
        |by exists 4%nat; split; [lia|]|by exists 5%nat; split; [lia|]
        |by exists 6%nat; split; [lia|]|by exists 7%nat; split; [lia|]].
Qed.

Lemma output_head target diff results :
  ∃ s, output target diff results = String (ascii_of_nat 10) s.
Proof. by eexists. Qed.

Lemma countdown_solver_total target unsorted_numbers :
  is_Some (countdown_solver target unsorted_numbers).
Proof.
  unfold countdown_solver, solve.
  destruct (unique_groups_total (sorted_reverse unsorted_numbers)) as (idx & -> & _).
  by eexists.
Qed.

End command_line_lemmas.

(** ** The search and the order of the numbers *)

Section search_results.
Implicit Types calcs best : list Calculation.
Implicit Types nums : list Z.

(** The values walked do not depend on the order of the numbers. *)
Lemma walk_results_perm nums nums' idx idx' v :
  nums ≡ₚ nums' →
  Solutions.unique_groups nums = Some idx →
  Solutions.unique_groups nums' = Some idx' →
  v ∈ result <$> Solutions.walk idx ↔ v ∈ result <$> Solutions.walk idx'.
Proof.
  intros Hperm Hidx Hidx'.
  rewrite (walk_results_reachable _ _ _ Hidx), (walk_results_reachable _ _ _ Hidx').
  by setoid_rewrite Hperm.
Qed.

(** More results can only lower the least difference. *)
Lemma least_difference_results target init calcs calcs' :
  (∀ v, v ∈ result <$> calcs → v ∈ result <$> calcs') →
  least_difference target init calcs' ≤ least_difference target init calcs.
Proof.
  intros Hsub.
  destruct (least_difference_attained target init calcs) as [->|(c & Hin & <-)].
  { apply least_difference_le. }
  destruct (proj1 (list_elem_of_fmap _ _ _) (Hsub _ (list_elem_of_fmap_2 result _ _ Hin)))
    as (c' & Heq & Hin').
  etrans; [apply (least_difference_lower _ _ _ c' Hin')|].
  unfold difference. rewrite Heq. lia.
Qed.

(** The values of the calculations at a given difference. *)
Lemma elem_of_best target m calcs v :
  v ∈ result <$> filter (λ c, difference target c = m) calcs
  ↔ v ∈ result <$> calcs ∧ Z.abs (v - target) = m.
Proof.
  rewrite !list_elem_of_fmap. split.
  - intros (c & -> & [Hd Hin]%list_elem_of_filter). split; [by exists c|done].
  - intros [(c & -> & Hin) Hd]. exists c. split; [done|].
    by apply list_elem_of_filter.
Qed.

(** The search finds the same difference, and best results with the same
    values, on two lists of calculations with the same results. *)
Lemma search_results target calcs calcs' :
  (∀ v, v ∈ result <$> calcs ↔ v ∈ result <$> calcs') →
  ∃ d best best',
    search target calcs = (d, best) ∧ search target calcs' = (d, best')
    ∧ ∀ v, v ∈ result <$> best ↔ v ∈ result <$> best'.
Proof.
  intros Hsame. rewrite !search_spec.
  assert (least_difference target target calcs = least_difference target target calcs')
    as Heq.
  { apply Z.le_antisymm; apply least_difference_results; intros v; apply Hsame. }
  eexists _, _, _. split; [done|]. split; [by rewrite Heq|].
  intros v. rewrite !elem_of_best, Hsame. by rewrite Heq.
Qed.

End search_results.

(** * The claims *)

(** C1, evaluated where the code departs from it: for target 0 and the
    numbers [(1, 1, 1, 1, 1, 1)] the search returns the difference 0 and an
    empty list, although the calculation ["1"] is walked and every walked
    calculation differs from the target by at least 1. *)
Theorem search_misses_minimum :
  countdown_solver 0 [1; 1; 1; 1; 1; 1] = Some (0, [])
  ∧ Calculation.singleton 1 ∈ all_calculations (sorted_reverse [1; 1; 1; 1; 1; 1])
  ∧ difference 0 (Calculation.singleton 1) = 1
  ∧ Forall (λ c, 1 ≤ difference 0 c) (all_calculations (sorted_reverse [1; 1; 1; 1; 1; 1])).
Proof.
  split_and!.
  - by vm_compute.
  - apply (bool_decide_unpack _). by vm_compute.
  - done.
  - apply (bool_decide_unpack _). by vm_compute.
Qed.

(** C2 as amended: for the numbers [(2, 2)] and target 7 the least
    difference is 3 and the retained calculations are ["2 + 2"] and
    ["2 x 2"], both with result 4, in this order; the other calculations
    walked are ["2"] (difference 5) and ["2 / 2"] (difference 6), and
    ["2 - 2"] is not generated. *)
Theorem scenario_2_2_target_7 :
  countdown_solver 7 [2; 2]
  = Some (3, [mkCalculation "2 + 2" 4 false; mkCalculation "2 x 2" 4 false])
  ∧ solve 7 [2; 2] = countdown_solver 7 [2; 2]
  ∧ all_calculations [2; 2]
    = [mkCalculation "2" 2 true; mkCalculation "2 + 2" 4 false;
       mkCalculation "2 x 2" 4 false; mkCalculation "2 / 2" 1 false]
  ∧ difference 7 <$> all_calculations [2; 2] = [5; 3; 3; 6].
Proof. split_and!; by vm_compute. Qed.

(** C2 as stated fails: the retained list is not the single calculation
    ["2 + 2"]. *)
Lemma scenario_2_2_not_single :
  solve 7 [2; 2] ≠ Some (3, [mkCalculation "2 + 2" 4 false]).
Proof. by vm_compute. Qed.

(** C3, evaluated where the code departs from it: the group [(3, 3, 2, 1)]
    is partitioned into [(3, 2) + (3, 1)] and again into [(3, 1) + (3, 2)],
    the same unordered pair, also when it is built for the six numbers
    [(3, 3, 2, 1, 1, 1)]; its calculations then hold ["(3 + 2) + (3 + 1)"]
    twice, and so does the list of best results for target 9. *)
Theorem partition_emits_mirrored_pair :
  partition_numbers [3; 3; 2; 1] [3; 3; 2; 1]
  = Some [([3; 3], [2; 1]); ([3; 2], [3; 1]); ([3; 1], [3; 2]);
          ([3; 3; 2], [1]); ([3; 3; 1], [2]); ([3; 2; 1], [3])]
  ∧ partition_numbers (sorted_reverse [3; 3; 2; 1; 1; 1]) [3; 3; 2; 1]
    = partition_numbers [3; 3; 2; 1] [3; 3; 2; 1]
  ∧ Group.halfbinom 4 2 = Some 3
  ∧ Group.paired_combinations [3; 3; 2; 1] 2 (Some 3)
    = [([3; 3], [2; 1]); ([3; 2], [3; 1]); ([3; 1], [3; 2])]
  ∧ length (filter (λ c, c = mkCalculation "(3 + 2) + (3 + 1)" 9 false)
                   (all_calculations [3; 3; 2; 1])) = 2%nat
  ∧ (λ '(diff, best),
       (diff, length (filter (λ c, c = mkCalculation "(3 + 2) + (3 + 1)" 9 false) best)))
      <$> countdown_solver 9 [3; 3; 2; 1; 1; 1]
    = Some (0, 2%nat).
Proof. split_and!; by vm_compute. Qed.

(** C4: for two calculations with positive results, ordered so that
    [hi >= lo], [generate] yields exactly: [hi + lo] always; [hi - lo] only
    when [hi > lo]; [hi x lo] only when both exceed 1; [hi / lo] only when
    [lo > 1] divides [hi]. Hence no subtraction yields a result [<= 0], and
    no multiplication or division has an operand equal to 1 (a quotient
    equal to 1 is possible). *)
Theorem generate_admissible (calca calcb : Calculation) :
  0 < result calca → 0 < result calcb →
  let hi := result calca `max` result calcb in
  let lo := result calca `min` result calcb in
  ∃ chi clo,
    ((chi, clo) = (calca, calcb) ∨ (chi, clo) = (calcb, calca))
    ∧ result chi = hi ∧ result clo = lo
    ∧ Calculation.generate calca calcb = combine chi clo <$> Calculation.operations hi lo
    ∧ (∀ r op, (r, op) ∈ Calculation.operations hi lo ↔
         (op = "+" ∧ r = hi + lo)
         ∨ (op = "-" ∧ r = hi - lo ∧ hi > lo)
         ∨ (op = "x" ∧ r = hi * lo ∧ hi > 1 ∧ lo > 1)
         ∨ (op = "/" ∧ r = hi `div` lo ∧ lo > 1 ∧ (lo | hi)))
    ∧ (∀ r op, (r, op) ∈ Calculation.operations hi lo →
         (op = "-" → 0 < r)
         ∧ (op = "x" ∨ op = "/" → hi ≠ 1 ∧ lo ≠ 1)
         ∧ (op = "/" → r * lo = hi))
    ∧ (hi = lo → lo > 1 → (1, "/") ∈ Calculation.operations hi lo).
Proof.
  intros Ha Hb hi lo.
  destruct (ordered_operands_results calca calcb) as [Hhi Hlo].
  exists (ordered_operands calca calcb).1, (ordered_operands calca calcb).2.
  split_and!; [|done|done|..].
  - unfold ordered_operands. case_bool_decide; auto.
  - rewrite generate_unfold. by rewrite Hhi, Hlo.
  - intros r op. rewrite elem_of_operations.
    assert (lo > 1 → (hi `mod` lo = 0 ↔ (lo | hi))) as Hdiv.
    { intros ?. apply Z.mod_divide. lia. }
    split; intros Hin; destruct_or?; destruct_and?; auto 10;
      do 3 right; split_and!; auto; by apply Hdiv.
  - intros r op. rewrite elem_of_operations.
    intros Hin; destruct_or?; destruct_and?; simplify_eq;
      (split_and!; [intros [=] || intros _; lia
                   |intros [[=]|[=]] || intros _; lia
                   |intros [=] || intros _]).
    rewrite Z.mul_comm. symmetry. apply Z.div_exact; [lia|done].
  - intros Heq Hlo1. apply elem_of_operations. do 3 right.
    rewrite Heq, Z_div_same, Z_mod_same by lia. done.
Qed.

Lemma generate_admissible_witness :
  0 < result (Calculation.singleton 6) ∧ 0 < result (Calculation.singleton 3)
  ∧ ∃ chi clo, result chi = 6 ∧ result clo = 3
      ∧ Calculation.generate (Calculation.singleton 6) (Calculation.singleton 3)
        = combine chi clo <$> Calculation.operations 6 3.
Proof.
  split; [done|]. split; [done|].
  destruct (generate_admissible (Calculation.singleton 6) (Calculation.singleton 3))
    as (chi & clo & _ & Hhi & Hlo & Hgen & _); [done..|].
  by exists chi, clo.
Defined.

(** C5: for every even [n >= 2] and [1 <= k <= n], [halfbinom(n, k)] is
    the binomial coefficient [C(n, k)] halved by integer division; the loop
    runs over [(n, 1), (n - 1, 2), ..., (n - k + 1, k)], holds [C(n, j)]
    after [j] iterations, and none of its divisions leaves a remainder. For
    every odd [n] the result is [None]. Under [lru_cache], over calls in
    which no key comes back after another one, every call returns the value
    of [halfbinom] and each distinct pair is computed once; the calls made
    while the dictionary of any input is built are of this kind. *)
Theorem halfbinom_spec (n k : Z) (calls : list (Z * Z)) (all_numbers : list Z) :
  (Z.odd n = true → Group.halfbinom n k = None)
  ∧ (Z.even n = true → 2 ≤ n → 1 ≤ k ≤ n →
       Group.halfbinom n k = Some (Z.of_nat (binom (Z.to_nat n) (Z.to_nat k)) `div` 2)
       ∧ Group.halfbinom_loop (Group.halfbinom_steps n k)
         = Z.of_nat (binom (Z.to_nat n) (Z.to_nat k))
       ∧ ∀ (j : nat) m l, Group.halfbinom_steps n k !! j = Some (m, l) →
           m = n - Z.of_nat j ∧ l = Z.of_nat j + 1
           ∧ Group.halfbinom_loop (take j (Group.halfbinom_steps n k))
             = Z.of_nat (binom (Z.to_nat n) j)
           ∧ (Group.halfbinom_loop (take j (Group.halfbinom_steps n k)) * m) `mod` l = 0)
  ∧ (contiguous calls →
       let '(c, out) := lru_calls Group.halfbinom lru_empty calls in
       out = (λ '(n, k), Group.halfbinom n k) <$> calls
       ∧ lru_misses c = distinct calls)
  ∧ (∃ idx, Solutions.unique_groups all_numbers = Some idx
       ∧ contiguous (halfbinom_calls idx)
       ∧ let '(c, out) := lru_calls Group.halfbinom lru_empty (halfbinom_calls idx) in
         out = (λ '(n, k), Group.halfbinom n k) <$> halfbinom_calls idx
         ∧ lru_misses c = distinct (halfbinom_calls idx)).
Proof.
  split_and!.
  - intros Hodd. unfold Group.halfbinom. rewrite bool_decide_eq_true_2; [done|].
    rewrite Zmod_odd. by rewrite Hodd.
  - intros Heven Hn Hk.
    assert (n = Z.of_nat (Z.to_nat n)) as Hn' by lia.
    assert (k = Z.of_nat (Z.to_nat k)) as Hk' by lia.
    destruct (halfbinom_loop_binom (Z.to_nat n) (Z.to_nat k)) as [Hloop _]; [lia|].
    rewrite <-Hn', <-Hk' in Hloop.
    split_and!; [|done|].
    + unfold Group.halfbinom. rewrite bool_decide_eq_false_2; [by rewrite Hloop|].
      rewrite Zmod_even. by rewrite Heven.
    + intros j m l. rewrite Hk' at 1 2 3. rewrite halfbinom_steps_seq by lia.
      rewrite <-fmap_take, take_seq, list_lookup_fmap_Some.
      intros (j' & [= -> ->] & [-> Hj]%lookup_seq). simpl in *.
      rewrite Nat.min_l by lia.
      rewrite <-(halfbinom_steps_seq n j) by lia.
      destruct (halfbinom_loop_binom (Z.to_nat n) j) as [Hloopj Hmod]; [lia|].
      rewrite <-Hn' in Hloopj, Hmod. split_and!; [done..|].
      by rewrite Hloopj.
  - intros Hcont. pose proof (lru_calls_contiguous Group.halfbinom calls Hcont) as Hlru.
    destruct (lru_calls Group.halfbinom lru_empty calls) as [c out]. by destruct Hlru as (? & ? & _).
  - destruct (unique_groups_total all_numbers) as (idx & Hidx & _).
    exists idx. split; [done|].
    pose proof (halfbinom_calls_contiguous _ _ Hidx) as Hcont. split; [done|].
    pose proof (lru_calls_contiguous Group.halfbinom _ Hcont) as Hlru.
    destruct (lru_calls Group.halfbinom lru_empty _) as [c out]. by destruct Hlru as (? & ? & _).
Qed.

Lemma halfbinom_spec_witness :
  Group.halfbinom 6 3 = Some (Z.of_nat (binom 6 3) `div` 2)
  ∧ contiguous [(2, 1); (2, 1); (3, 1); (4, 2); (4, 2)]
  ∧ lru_misses (lru_calls Group.halfbinom lru_empty [(2, 1); (2, 1); (3, 1); (4, 2); (4, 2)]).1 = 3%nat.
Proof.
  assert (contiguous [(2, 1); (2, 1); (3, 1); (4, 2); (4, 2)]) as Hcont.
  { apply (contiguous_snoc [(2, 1); (2, 1); (3, 1); (4, 2)] (4, 2)); [|done].
    apply (contiguous_snoc [(2, 1); (2, 1); (3, 1)] (4, 2));
      [|by intros Hin; apply (bool_decide_pack _) in Hin].
    apply (contiguous_snoc [(2, 1); (2, 1)] (3, 1));
      [|by intros Hin; apply (bool_decide_pack _) in Hin].
    apply (contiguous_snoc [(2, 1)] (2, 1)); [|done].
    apply (contiguous_snoc [] (2, 1)); [exact contiguous_nil|by intros ?%elem_of_nil]. }
  destruct (halfbinom_spec 6 3 [(2, 1); (2, 1); (3, 1); (4, 2); (4, 2)] [])
    as (_ & Heven & Hlru & _).
  destruct (Heven eq_refl) as (Hval & _); [lia..|].
  split; [exact Hval|]. split; [exact Hcont|].
  specialize (Hlru Hcont).
  destruct (lru_calls Group.halfbinom lru_empty _) as [c out]. simpl.
  destruct Hlru as [_ ->]. by vm_compute.
Defined.

(** C6 as amended: for every tuple of integers and every rearrangement
    of it, [Solutions] handed the one or the other builds a dictionary
    and walks calculations with the same set of results, and the search
    reports the same smallest difference and retains best results with
    the same set of values. So the sort in [countdown_solver] does not
    affect which results are produced, which difference is reported and
    which values are among the best results; and with the sort the
    dictionary, the calculations, their order and the returned pair are
    the same for every rearrangement. (The calculations themselves, that
    is their expressions and how often a result occurs, can differ
    between two orders when the numbers are not sorted.) *)
Theorem countdown_solver_perm (target : Z) (nums nums' : list Z) :
  nums ≡ₚ nums' →
  (∃ idx idx' d best best',
      Solutions.unique_groups nums = Some idx
      ∧ Solutions.unique_groups nums' = Some idx'
      ∧ (∀ v, v ∈ result <$> Solutions.walk idx ↔ v ∈ result <$> Solutions.walk idx')
      ∧ solve target nums = Some (d, best)
      ∧ solve target nums' = Some (d, best')
      ∧ (∀ v, v ∈ result <$> best ↔ v ∈ result <$> best')
      ∧ ∃ sorted_best,
          countdown_solver target nums = Some (d, sorted_best)
          ∧ ∀ v, v ∈ result <$> best ↔ v ∈ result <$> sorted_best)
  ∧ (∀ v, v ∈ result <$> all_calculations (sorted_reverse nums)
          ↔ v ∈ result <$> all_calculations nums)
  ∧ Solutions.unique_groups (sorted_reverse nums) = Solutions.unique_groups (sorted_reverse nums')
  ∧ all_calculations (sorted_reverse nums) = all_calculations (sorted_reverse nums')
  ∧ countdown_solver target nums = countdown_solver target nums'.
Proof.
  intros Hperm.
  destruct (unique_groups_total nums) as (idx & Hidx & _).
  destruct (unique_groups_total nums') as (idx' & Hidx' & _).
  destruct (unique_groups_total (sorted_reverse nums)) as (idxs & Hidxs & _).
  pose proof (sorted_reverse_Permutation nums) as Hsort.
  assert (∀ v, v ∈ result <$> Solutions.walk idx ↔ v ∈ result <$> Solutions.walk idx')
    as Hwalk by (intros v; exact (walk_results_perm _ _ _ _ v Hperm Hidx Hidx')).
  assert (∀ v, v ∈ result <$> Solutions.walk idx ↔ v ∈ result <$> Solutions.walk idxs)
    as Hwalks by (intros v; exact (walk_results_perm _ _ _ _ v (symmetry Hsort) Hidx Hidxs)).
  destruct (search_results target _ _ Hwalk) as (d & best & best' & Hs & Hs' & Hbest).
  destruct (search_results target _ _ Hwalks) as (d2 & best2 & bests & Hs2 & Hss & Hbests).
  rewrite Hs in Hs2. injection Hs2 as <- <-.
  split_and!.
  - exists idx, idx', d, best, best'. unfold countdown_solver, solve.
    rewrite Hidx, Hidx', Hidxs. simpl. rewrite Hs, Hs', Hss.
    split_and!; [done..|]. by exists bests.
  - intros v. unfold all_calculations. rewrite Hidx, Hidxs. simpl. by rewrite Hwalks.
  - by rewrite (sorted_reverse_perm _ _ Hperm).
  - by rewrite (sorted_reverse_perm _ _ Hperm).
  - unfold countdown_solver. by rewrite (sorted_reverse_perm _ _ Hperm).
Qed.

Lemma countdown_solver_perm_witness :
  [3; 2; 4; 1] ≡ₚ [4; 3; 2; 1]
  ∧ (∀ v, v ∈ result <$> all_calculations (sorted_reverse [3; 2; 4; 1])
          ↔ v ∈ result <$> all_calculations [3; 2; 4; 1])
  ∧ countdown_solver 10 [3; 2; 4; 1] = countdown_solver 10 [4; 3; 2; 1].
Proof.
  assert ([3; 2; 4; 1] ≡ₚ [4; 3; 2; 1]) as Hperm by solve_Permutation.
  split; [exact Hperm|].
  destruct (countdown_solver_perm 10 _ _ Hperm) as (_ & Hres & _ & _ & Hsolve).
  split; [exact Hres|exact Hsolve].
Defined.

(** C6 as stated fails without the sort: [Solutions] on [(3, 2, 4, 1)]
    yields ["(3 + 2) + (4 + 1)"], which it does not yield on the sorted
    tuple [(4, 3, 2, 1)] (there the operands come in the other order). *)
Lemma unsorted_calculations_differ :
  ¬ (∀ c, c ∈ all_calculations [3; 2; 4; 1] → c ∈ all_calculations (sorted_reverse [3; 2; 4; 1])).
Proof.
  intros Hsame.
  assert (mkCalculation "(3 + 2) + (4 + 1)" 10 false ∈ all_calculations [3; 2; 4; 1]) as Hin.
  { apply (bool_decide_unpack _). by vm_compute. }
  apply Hsame, (bool_decide_pack _) in Hin. by vm_compute in Hin.
Qed.

(** C7 as amended: for every group [G] of the dictionary and every pair
    [(A, B)] of [G.partitions], the sizes add up to the size of [G] and
    [A.numbers] followed by [B.numbers] is a rearrangement of [G.numbers]
    (the two sides take different occurrences, but may hold equal values);
    both sides are groups of the dictionary; a group of size 1 has no
    partitions. *)
Theorem partition_pairs_split (all_numbers : list Z) :
  ∃ idx, Solutions.unique_groups all_numbers = Some idx
    ∧ ∀ key G, (key, G) ∈ idx →
        G.(numbers) = key ∧ G.(size) = length key
        ∧ (G.(size) = 1%nat → G.(partitions) = [])
        ∧ ∀ A B, (A, B) ∈ G.(partitions) →
            (A.(size) + B.(size))%nat = G.(size)
            ∧ A.(numbers) ++ B.(numbers) ≡ₚ G.(numbers)
            ∧ (A.(numbers), A) ∈ idx ∧ (B.(numbers), B) ∈ idx.
Proof.
  destruct (unique_groups_total all_numbers) as (idx & Hidx & _).
  pose proof (unique_groups_wf _ _ Hidx) as [_ Hwf Hcl].
  exists idx. split; [done|]. intros key G Hin.
  destruct (Hwf _ _ Hin) as [? ? _ _ Hparts ? _]. split_and!; [done..|].
  intros A B HAB. destruct (Hparts A B HAB) as (? & ? & _).
  destruct (Hcl _ _ _ _ Hin HAB). done.
Qed.

(** C7 as stated fails: in the dictionary of [(2, 2)] the group [(2, 2)] is
    split into [(2,)] and [(2,)], whose numbers are not disjoint. *)
Lemma partition_sides_share_value :
  ¬ (∀ idx key G A B x,
       Solutions.unique_groups [2; 2] = Some idx → (key, G) ∈ idx →
       (A, B) ∈ G.(partitions) → x ∈ A.(numbers) → x ∉ B.(numbers)).
Proof.
  intros Hdisj.
  destruct (Solutions.unique_groups [2; 2]) as [idx|] eqn:Hidx; [|by vm_compute in Hidx].
  vm_compute in Hidx. injection Hidx as <-.
  eapply (Hdisj _ [2; 2] _ _ _ 2); [reflexivity| | | |].
  - right. left.
  - left.
  - left.
  - left.
Qed.

(** C8 as amended: for every tuple in descending order, which is how
    [countdown_solver] hands the numbers to [Solutions], the dictionary has
    exactly one key per non-empty sub-multiset of the input: no two keys
    have the same content, every key is a non-empty sub-multiset, and every
    non-empty sub-multiset is the content of a key. *)
Theorem index_keys_canonical (all_numbers : list Z) :
  StronglySorted Z.ge all_numbers →
  ∃ idx, Solutions.unique_groups all_numbers = Some idx
    ∧ NoDup idx.*1
    ∧ (∀ k1 k2, k1 ∈ idx.*1 → k2 ∈ idx.*1 → k1 ≡ₚ k2 → k1 = k2)
    ∧ (∀ k, k ∈ idx.*1 → k ≠ [] ∧ k ⊆+ all_numbers)
    ∧ (∀ s, s ≠ [] → s ⊆+ all_numbers → ∃ k, k ∈ idx.*1 ∧ k ≡ₚ s).
Proof.
  intros Hsorted. destruct (unique_groups_total all_numbers) as (idx & Hidx & Hcov).
  pose proof (unique_groups_wf _ _ Hidx) as [Hnd Hwf _].
  assert (∀ k, k ∈ idx.*1 → k `sublist_of` all_numbers ∧ k ≠ []) as Hkeys.
  { intros k ([k' g] & -> & Hin)%list_elem_of_fmap. by destruct (Hwf _ _ Hin). }
  exists idx. split_and!; [done..| | |].
  - intros k1 k2 [? _]%Hkeys [? _]%Hkeys. by apply sublist_sorted_unique with all_numbers.
  - intros k [? ?]%Hkeys. split; [done|by apply sublist_submseteq].
  - intros s Hne (k & Hperm & Hsub)%submseteq_sublist_r. exists k. split; [|done].
    apply Hcov; [done|]. apply Permutation_length in Hperm. apply sublist_length in Hsub.
    destruct s; [done|]. simpl in *. lia.
Qed.

Lemma index_keys_canonical_witness :
  StronglySorted Z.ge [2; 1; 1]
  ∧ ∃ idx, Solutions.unique_groups [2; 1; 1] = Some idx ∧ NoDup idx.*1.
Proof.
  assert (StronglySorted Z.ge [2; 1; 1]) as Hsorted.
  { repeat (constructor; [|repeat constructor; lia]). constructor. }
  split; [exact Hsorted|].
  destruct (index_keys_canonical [2; 1; 1] Hsorted) as (idx & Hidx & Hnd & _).
  by exists idx.
Defined.

(** C8 as stated fails on a tuple that is not in descending order: the
    dictionary of [(1, 2, 1)] has the keys [(1, 2)] and [(2, 1)]. *)
Lemma index_keys_same_content :
  ¬ (∀ idx k1 k2,
       Solutions.unique_groups [1; 2; 1] = Some idx →
       k1 ∈ idx.*1 → k2 ∈ idx.*1 → k1 ≡ₚ k2 → k1 = k2).
Proof.
  intros Hcanon.
  destruct (Solutions.unique_groups [1; 2; 1]) as [idx|] eqn:Hidx; [|by vm_compute in Hidx].
  assert (idx.*1 = [[1]; [2]; [1; 2]; [1; 1]; [2; 1]; [1; 2; 1]]) as Hkeys.
  { transitivity (all_keys [1; 2; 1]); [unfold all_keys; by rewrite Hidx|by vm_compute]. }
  assert ([1; 2] = [2; 1]) as [=].
  apply (Hcanon idx); [done|rewrite Hkeys..|apply Permutation_swap].
  - do 2 right. left.
  - do 4 right. left.
Qed.

(** C9: when every input number is strictly positive, building the
    dictionary succeeds and every calculation constructed -- the singleton
    of a group of size 1 and everything [generate] yields -- has a strictly
    positive result. *)
Theorem results_positive (all_numbers : list Z) :
  Forall (λ n, 0 < n) all_numbers →
  ∃ idx, Solutions.unique_groups all_numbers = Some idx
    ∧ (∀ key g c, (key, g) ∈ idx → c ∈ g.(calculations) → 0 < result c)
    ∧ (∀ c, c ∈ Solutions.walk idx → 0 < result c).
Proof.
  intros Hall. destruct (unique_groups_total all_numbers) as (idx & Hidx & _).
  exists idx. split; [done|].
  pose proof (unique_groups_positive _ _ Hall Hidx) as Hpos.
  split; [exact Hpos|].
  intros c (key & g & ? & ?)%elem_of_walk. by eapply Hpos.
Qed.

Lemma results_positive_witness :
  Forall (λ n, 0 < n) [3; 2]
  ∧ ∃ idx, Solutions.unique_groups [3; 2] = Some idx ∧ ∀ c, c ∈ Solutions.walk idx → 0 < result c.
Proof.
  assert (Forall (λ n, 0 < n) [3; 2]) as Hall by (repeat constructor).
  split; [exact Hall|].
  destruct (results_positive [3; 2] Hall) as (idx & Hidx & _ & Hwalk).
  by exists idx.
Defined.

(** C10: [generate] always yields at least one calculation, the sum, and
    yields it first; hence every group of the dictionary has a non-empty
    list of calculations, and [walk] over a non-empty input yields at least
    one calculation. *)
Theorem calculations_nonempty (calca calcb : Calculation) (all_numbers : list Z) :
  (∃ rest, Calculation.generate calca calcb =
     combine (ordered_operands calca calcb).1 (ordered_operands calca calcb).2
             (result calca + result calcb, "+") :: rest)
  ∧ ∃ idx, Solutions.unique_groups all_numbers = Some idx
      ∧ (∀ key g, (key, g) ∈ idx → g.(calculations) ≠ [])
      ∧ (all_numbers ≠ [] → Solutions.walk idx ≠ []).
Proof.
  split; [apply generate_head|].
  destruct (unique_groups_total all_numbers) as (idx & Hidx & Hcov).
  pose proof (unique_groups_wf _ _ Hidx) as [_ Hwf _].
  exists idx. split_and!; [done|..].
  - intros key g Hin. by destruct (Hwf _ _ Hin).
  - intros Hne. destruct all_numbers as [|n rest]; [done|].
    assert ([n] ∈ idx.*1) as ([key g] & _ & Hin)%list_elem_of_fmap.
    { apply Hcov; [|simpl; lia]. apply sublist_skip, sublist_nil_l. }
    unfold Solutions.walk. eapply (bind_nonempty _ _ (key, g)); [done|].
    by destruct (Hwf _ _ Hin).
Qed.

(** * Further properties of the code *)

(** X1: when [elements] is a subsequence of [iterable], [filtering] returns
    what is left: a subsequence of [iterable] that, together with
    [elements], is a rearrangement of [iterable]. *)
Theorem filtering_complement (iterable elements : list Z) :
  elements `sublist_of` iterable →
  Group.filtering iterable elements `sublist_of` iterable
  ∧ elements ++ Group.filtering iterable elements ≡ₚ iterable
  ∧ length (Group.filtering iterable elements) = (length iterable - length elements)%nat.
Proof.
  intros Hs. split_and!.
  - apply filtering_sublist.
  - by apply filtering_Permutation.
  - pose proof (filtering_length _ _ Hs). lia.
Qed.

Lemma filtering_complement_witness :
  [3; 1] `sublist_of` [3; 3; 2; 1]
  ∧ [3; 1] ++ Group.filtering [3; 3; 2; 1] [3; 1] ≡ₚ [3; 3; 2; 1].
Proof.
  assert ([3; 1] `sublist_of` [3; 3; 2; 1]) as Hs.
  { apply sublist_skip, sublist_cons, sublist_cons, sublist_skip, sublist_nil_l. }
  split; [exact Hs|]. by destruct (filtering_complement _ _ Hs) as (_ & ? & _).
Defined.

(** X2: [filtering] never fails and never invents a number: its result is
    always a subsequence of [iterable]. With nothing to remove it returns
    [iterable]; removing [iterable] itself leaves nothing; and when the
    first element to remove does not occur, nothing at all is removed. *)
Theorem filtering_edges (iterable elements : list Z) (k : Z) :
  Group.filtering iterable elements `sublist_of` iterable
  ∧ Group.filtering iterable [] = iterable
  ∧ Group.filtering iterable iterable = []
  ∧ (k ∉ iterable → Group.filtering iterable (k :: elements) = iterable).
Proof.
  split_and!.
  - apply filtering_sublist.
  - apply filtering_nil_r.
  - apply filtering_all.
  - apply filtering_absent.
Qed.

(** X3: [generate] does not depend on the order of its two arguments when
    their results differ, and always yields the same results in the same
    order; it yields between one and four calculations, none of them
    flagged as a singleton. *)
Theorem generate_symmetric (calca calcb : Calculation) :
  result <$> Calculation.generate calca calcb = result <$> Calculation.generate calcb calca
  ∧ (result calca ≠ result calcb →
       Calculation.generate calca calcb = Calculation.generate calcb calca)
  ∧ (1 ≤ length (Calculation.generate calca calcb) ≤ 4)%nat
  ∧ Forall (λ c, is_singleton c = false) (Calculation.generate calca calcb).
Proof.
  split; [|split; [|split]].
  - by rewrite !generate_results, Z.max_comm, Z.min_comm.
  - apply generate_swap.
  - rewrite generate_unfold, length_fmap. apply operations_length.
  - rewrite generate_unfold. apply Forall_fmap, Forall_forall. by intros [??] _.
Qed.

(** X4: the search returns the smaller of the target and the least
    difference of a calculation, and the calculations at exactly that
    difference, in the order they were walked. *)
Theorem search_returns_least (target : Z) (calcs : list Calculation) :
  ∃ d best, search target calcs = (d, best)
    ∧ d ≤ target
    ∧ (∀ c, c ∈ calcs → d ≤ difference target c)
    ∧ (d = target ∨ ∃ c, c ∈ calcs ∧ difference target c = d)
    ∧ best = filter (λ c, difference target c = d) calcs.
Proof.
  eexists _, _. split; [apply search_spec|]. split_and!.
  - apply least_difference_le.
  - intros c. apply least_difference_lower.
  - apply least_difference_attained.
  - done.
Qed.

(** X5: if some calculation differs from the target by at most the target,
    the search returns the least difference of all calculations and
    exactly the calculations that attain it, at least one. *)
Theorem search_optimal (target : Z) (calcs : list Calculation) (c : Calculation) :
  c ∈ calcs → difference target c ≤ target →
  ∃ d best, search target calcs = (d, best)
    ∧ best ≠ []
    ∧ (∀ c', c' ∈ calcs → d ≤ difference target c')
    ∧ (∀ c', c' ∈ best ↔ c' ∈ calcs ∧ difference target c' = d)
    ∧ best `sublist_of` calcs.
Proof.
  intros Hin Hle. eexists _, _. split; [apply search_spec|]. split_and!.
  - destruct (least_difference_exact target calcs c Hin Hle) as (c' & Hin' & Hc').
    intros Hnil. exact (filter_nil_not_elem_of _ _ c' Hnil Hc' Hin').
  - intros c'. apply least_difference_lower.
  - intros c'. rewrite list_elem_of_filter. tauto.
  - apply sublist_filter.
Qed.

Lemma search_optimal_witness :
  Calculation.singleton 2 ∈ [Calculation.singleton 2; Calculation.singleton 9]
  ∧ difference 7 (Calculation.singleton 2) ≤ 7
  ∧ ∃ d best, search 7 [Calculation.singleton 2; Calculation.singleton 9] = (d, best)
      ∧ best ≠ [].
Proof.
  assert (Calculation.singleton 2 ∈ [Calculation.singleton 2; Calculation.singleton 9])
    as Hin by left.
  assert (difference 7 (Calculation.singleton 2) ≤ 7) as Hle by (by vm_compute).
  split; [exact Hin|]. split; [exact Hle|].
  destruct (search_optimal 7 _ _ Hin Hle) as (d & best & Hs & Hne & _).
  by exists d, best.
Defined.

(** X6: if one of the numbers lies between 0 and twice the target,
    [countdown_solver] returns the least difference over all walked
    calculations, which is at most the distance of that number from the
    target, and exactly the walked calculations that attain it. *)
Theorem countdown_solver_optimal (target : Z) (unsorted_numbers : list Z) (n : Z) :
  n ∈ unsorted_numbers → 0 ≤ n ≤ 2 * target →
  ∃ idx d best,
    Solutions.unique_groups (sorted_reverse unsorted_numbers) = Some idx
    ∧ countdown_solver target unsorted_numbers = Some (d, best)
    ∧ best ≠ []
    ∧ d ≤ Z.abs (n - target)
    ∧ (∀ c, c ∈ Solutions.walk idx → d ≤ difference target c)
    ∧ (∀ c, c ∈ best ↔ c ∈ Solutions.walk idx ∧ difference target c = d).
Proof.
  intros Hn Hrange.
  destruct (unique_groups_total (sorted_reverse unsorted_numbers)) as (idx & Hidx & _).
  assert (Calculation.singleton n ∈ Solutions.walk idx) as Hin.
  { eapply singleton_walked; [done|]. by rewrite sorted_reverse_Permutation. }
  assert (difference target (Calculation.singleton n) ≤ target) as Hle.
  { unfold difference. simpl. lia. }
  exists idx. eexists _, _. split; [done|]. split.
  { unfold countdown_solver, solve. rewrite Hidx. simpl. by rewrite search_spec. }
  split_and!.
  - destruct (least_difference_exact target _ _ Hin Hle) as (c' & Hin' & Hc').
    intros Hnil. exact (filter_nil_not_elem_of _ _ c' Hnil Hc' Hin').
  - etrans; [by apply least_difference_lower|]. done.
  - intros c. apply least_difference_lower.
  - intros c. rewrite list_elem_of_filter. tauto.
Qed.

Lemma countdown_solver_optimal_witness :
  2 ∈ [2; 2] ∧ 0 ≤ 2 ≤ 2 * 7
  ∧ ∃ d best, countdown_solver 7 [2; 2] = Some (d, best) ∧ d ≤ Z.abs (2 - 7).
Proof.
  assert (2 ∈ [2; 2]) as Hin by left.
  assert (0 ≤ 2 ≤ 2 * 7) as Hr by lia.
  split; [exact Hin|]. split; [exact Hr|].
  destruct (countdown_solver_optimal 7 [2; 2] 2 Hin Hr) as (idx & d & best & _ & Hs & _ & Hd & _).
  by exists d, best.
Defined.

(** X7: every input number has its own group, stored under the tuple of
    that number alone: it has no partitions and its only calculation is
    the number itself, with its decimal text as expression and the
    singleton flag set; this calculation is walked. *)
Theorem singleton_groups (all_numbers : list Z) (n : Z) :
  n ∈ all_numbers →
  ∃ idx g, Solutions.unique_groups all_numbers = Some idx
    ∧ index_get idx [n] = Some g
    ∧ g.(partitions) = []
    ∧ g.(calculations) = [mkCalculation (format_int n) n true]
    ∧ mkCalculation (format_int n) n true ∈ Solutions.walk idx.
Proof.
  intros Hn. destruct (unique_groups_total all_numbers) as (idx & Hidx & Hcov).
  pose proof (unique_groups_wf _ _ Hidx) as [Hnd Hwf _].
  assert (is_Some (index_get idx [n])) as [g Hg].
  { apply index_get_is_Some, (unique_groups_keys _ _ _ Hidx). split; [done|].
    apply list_elem_of_split in Hn as (l1 & l2 & ->).
    apply sublist_inserts_l, sublist_skip, sublist_nil_l. }
  pose proof (index_get_elem_of _ _ _ Hg) as Hin.
  exists idx, g. split_and!; [done..| | |].
  - destruct (Hwf _ _ Hin) as [_ Hsize _ _ _ Hsingle _]. by apply Hsingle.
  - by apply (unique_groups_singletons _ _ _ _ Hidx Hin).
  - by apply (singleton_walked _ _ _ Hidx).
Qed.

Lemma singleton_groups_witness :
  25 ∈ [100; 25; 3]
  ∧ ∃ idx g, Solutions.unique_groups [100; 25; 3] = Some idx
      ∧ index_get idx [25] = Some g
      ∧ g.(calculations) = [mkCalculation "25" 25 true].
Proof.
  assert (25 ∈ [100; 25; 3]) as Hin by (right; left).
  split; [exact Hin|].
  destruct (singleton_groups [100; 25; 3] 25 Hin) as (idx & g & Hidx & Hg & _ & Hc & _).
  by exists idx, g.
Defined.

(** X8: for every input tuple, building the dictionary raises no
    exception; its keys are exactly the non-empty subsequences of the
    input, each once; a lookup fails exactly for the empty tuple and for
    tuples that are no subsequence; and a successful lookup returns the
    group whose numbers are the key. *)
Theorem index_keys_subsequences (all_numbers : list Z) :
  ∃ idx, Solutions.unique_groups all_numbers = Some idx
    ∧ NoDup idx.*1
    ∧ (∀ key, key ∈ idx.*1 ↔ key ≠ [] ∧ key `sublist_of` all_numbers)
    ∧ (∀ key, index_get idx key = None ↔ key = [] ∨ ¬ key `sublist_of` all_numbers)
    ∧ (∀ key g, index_get idx key = Some g ↔ (key, g) ∈ idx)
    ∧ (∀ key g, index_get idx key = Some g →
         g.(numbers) = key ∧ g.(size) = length key).
Proof.
  destruct (unique_groups_total all_numbers) as (idx & Hidx & _).
  pose proof (unique_groups_wf _ _ Hidx) as [Hnd Hwf _].
  exists idx. split_and!; [done..| | | |].
  - intros key. by apply unique_groups_keys.
  - intros key. rewrite index_get_None, (unique_groups_keys _ _ _ Hidx).
    destruct (decide (key = [])) as [->|Hne]; [naive_solver|]. naive_solver.
  - intros key g. split; [apply index_get_elem_of|by apply index_get_NoDup].
  - intros key g Hin%index_get_elem_of. by destruct (Hwf _ _ Hin).
Qed.

(** X9: the groups are created, and walked, in order of increasing size:
    the keys of the dictionary come in non-decreasing length, and the last
    one is the whole input. *)
Theorem index_keys_by_length (all_numbers : list Z) :
  ∃ idx, Solutions.unique_groups all_numbers = Some idx
    ∧ StronglySorted le (length <$> idx.*1)
    ∧ StronglySorted le ((λ kg, size kg.2) <$> idx)
    ∧ (all_numbers ≠ [] → last idx.*1 = Some all_numbers).
Proof.
  destruct (unique_groups_total all_numbers) as (idx & Hidx & _).
  pose proof (unique_groups_wf _ _ Hidx) as [Hnd Hwf _].
  pose proof (unique_groups_lengths _ _ Hidx) as Hsorted.
  exists idx. split_and!; [done..| |].
  - replace ((λ kg, size kg.2) <$> idx) with (length <$> idx.*1); [done|].
    rewrite <-list_fmap_compose. apply list_fmap_ext.
    intros i [key g] Hi%list_elem_of_lookup_2. simpl. by destruct (Hwf _ _ Hi).
  - intros Hne.
    assert (all_numbers ∈ idx.*1) as Hall by (by apply (unique_groups_keys _ _ _ Hidx)).
    destruct (last idx.*1) as [key|] eqn:Hlast.
    2:{ apply last_None in Hlast. rewrite Hlast in Hall. by apply elem_of_nil in Hall. }
    f_equal. apply last_Some in Hlast as [keys Hkeys].
    assert (key `sublist_of` all_numbers) as Hsub.
    { apply (unique_groups_keys _ _ _ Hidx). rewrite Hkeys. apply elem_of_app. right. left. }
    apply sublist_same_length; [done|].
    rewrite Hkeys in Hall, Hsorted. apply elem_of_app in Hall as [Hall|Hall%list_elem_of_singleton];
      [|by subst].
    rewrite fmap_app in Hsorted. apply StronglySorted_app in Hsorted as (Hle & _).
    apply Hle; [by apply list_elem_of_fmap_2|left].
Qed.

(** X10: [paired_combinations] pairs every combination with what
    [filtering] leaves of the tuple. Without a limit, or with a limit below
    1, it yields all [C(len(numbers), m)] combinations; with a limit of at
    least 1 it yields the first [limit] of them (all, if there are
    fewer). *)
Theorem paired_combinations_limit (nums : list Z) (m : nat) (limit : option Z) :
  Group.paired_combinations nums m limit
  = (λ c, (c, Group.filtering nums c)) <$>
      match limit with
      | Some lim =>
          if bool_decide (1 ≤ lim) then take (Z.to_nat lim) (combinations nums m)
          else combinations nums m
      | None => combinations nums m
      end
  ∧ length (combinations nums m) = binom (length nums) m
  ∧ (length (Group.paired_combinations nums m limit) ≤ binom (length nums) m)%nat.
Proof.
  pose proof (paired_combinations_eq nums m limit) as Heq.
  split_and!; [done|apply combinations_length|].
  rewrite Heq, length_fmap, <-combinations_length.
  destruct limit as [lim|]; [|done]. case_bool_decide; [|done].
  rewrite length_take. lia.
Qed.

(** X11: for every even [n >= 0] and every [k >= 0], also [k = 0] and
    [k > n], [halfbinom(n, k)] is [C(n, k) // 2]; for [k <= 0] the loop is
    empty and the result is 0. For an even size [2m >= 2] the limit
    [halfbinom(2m, m)] is exactly half of [C(2m, m)], namely
    [C(2m - 1, m - 1)]. *)
Theorem halfbinom_edges (n k : nat) (z : Z) (m : nat) :
  (Nat.even n = true →
     Group.halfbinom (Z.of_nat n) (Z.of_nat k) = Some (Z.of_nat (binom n k) `div` 2))
  ∧ (Nat.even n = true → z ≤ 0 → Group.halfbinom (Z.of_nat n) z = Some 0)
  ∧ (Nat.even n = true → (n < k)%nat → Group.halfbinom (Z.of_nat n) (Z.of_nat k) = Some 0)
  ∧ ((1 ≤ m)%nat →
       Group.halfbinom (Z.of_nat (2 * m)) (Z.of_nat (2 * m) `div` 2)
       = Some (Z.of_nat (binom (2 * m - 1) (m - 1)))
       ∧ (2 * binom (2 * m - 1) (m - 1) = binom (2 * m) m)%nat).
Proof.
  assert (∀ n' : nat, Nat.even n' = true → bool_decide (Z.of_nat n' `mod` 2 = 1) = false) as Hev.
  { intros n' [h ->]%Nat.even_spec. apply bool_decide_eq_false_2.
    rewrite Nat2Z.inj_mul, Z.mul_comm, Z_mod_mult. done. }
  split_and!.
  - intros Hn. unfold Group.halfbinom. by rewrite Hev, halfbinom_loop_binom_any.
  - intros Hn Hz. unfold Group.halfbinom. by rewrite Hev, halfbinom_steps_nonpos.
  - intros Hn Hk. unfold Group.halfbinom.
    by rewrite Hev, halfbinom_loop_binom_any, binom_gt.
  - intros Hm. split; [|by rewrite binom_central].
    unfold Group.halfbinom. rewrite Hev by (by rewrite Nat.even_mul).
    replace (Z.of_nat (2 * m) `div` 2) with (Z.of_nat m).
    2:{ rewrite Nat2Z.inj_mul, Z.mul_comm, Z.div_mul; lia. }
    rewrite halfbinom_loop_binom_any, binom_central by done.
    rewrite Nat2Z.inj_mul, Z.mul_comm, Z.div_mul; [done|lia].
Qed.

(** X12: the partitions of a group are complete: for every group of the
    dictionary and every way to split its tuple into two non-empty
    multisets, one stored pair has these two multisets as the numbers of
    its sides, in one order or the other. *)
Theorem partitions_complete (all_numbers : list Z) :
  ∃ idx, Solutions.unique_groups all_numbers = Some idx
    ∧ ∀ key G X Y, (key, G) ∈ idx → X ≠ [] → Y ≠ [] → X ++ Y ≡ₚ key →
        ∃ A B, (A, B) ∈ G.(partitions)
          ∧ ((A.(numbers) ≡ₚ X ∧ B.(numbers) ≡ₚ Y)
             ∨ (A.(numbers) ≡ₚ Y ∧ B.(numbers) ≡ₚ X)).
Proof.
  destruct (unique_groups_total all_numbers) as (idx & Hidx & _).
  exists idx. split; [done|]. by apply (unique_groups_complete all_numbers).
Qed.

(** X13: within a group no two stored pairs have the same first side, so
    no pair is stored twice in the same order; the first side of a pair is
    at least as long as the second, and both sides are non-empty and
    shorter than the group. *)
Theorem partition_first_sides (all_numbers : list Z) :
  ∃ idx, Solutions.unique_groups all_numbers = Some idx
    ∧ ∀ key G, (key, G) ∈ idx →
        NoDup ((λ p, numbers p.1) <$> G.(partitions))
        ∧ NoDup G.(partitions)
        ∧ ∀ A B, (A, B) ∈ G.(partitions) →
            (1 ≤ B.(size) ≤ A.(size))%nat ∧ (A.(size) < G.(size))%nat.
Proof.
  destruct (unique_groups_total all_numbers) as (idx & Hidx & _).
  exists idx. split; [done|]. intros key G Hin.
  destruct (unique_groups_firsts _ _ Hidx _ _ Hin) as [Hnd Hsizes].
  split_and!; [done| |done]. by apply NoDup_fmap_1 in Hnd.
Qed.

(** X14: the dictionary is a memo table: the group stored for a tuple is
    the one [Group] would build for it against the finished dictionary, and
    it is the same group in the dictionary of every input of which the
    tuple is a subsequence, in particular the one [Solutions] builds for
    the tuple alone. *)
Theorem group_reused (all_numbers key : list Z) :
  key `sublist_of` all_numbers → key ≠ [] →
  ∃ idx idx' g,
    Solutions.unique_groups all_numbers = Some idx
    ∧ Solutions.unique_groups key = Some idx'
    ∧ index_get idx key = Some g
    ∧ index_get idx' key = Some g
    ∧ Group.__init__ key idx = Some g.
Proof.
  intros Hsub Hne.
  destruct (unique_groups_total all_numbers) as (idx & Hidx & _).
  destruct (unique_groups_total key) as (idx' & Hidx' & _).
  assert (is_Some (index_get idx key)) as [g Hg].
  { by apply index_get_is_Some, (unique_groups_keys _ _ _ Hidx). }
  exists idx, idx', g. split_and!; [done..| |].
  - by rewrite <-(unique_groups_reuse _ _ _ _ Hidx Hidx' Hsub key).
  - by apply (unique_groups_reinit _ _ _ _ Hidx), index_get_elem_of.
Qed.

Lemma group_reused_witness :
  [3; 2; 1] `sublist_of` [3; 3; 2; 1; 1] ∧ [3; 2; 1] ≠ []
  ∧ ∃ idx idx' g,
      Solutions.unique_groups [3; 3; 2; 1; 1] = Some idx
      ∧ Solutions.unique_groups [3; 2; 1] = Some idx'
      ∧ index_get idx [3; 2; 1] = Some g ∧ index_get idx' [3; 2; 1] = Some g.
Proof.
  assert ([3; 2; 1] `sublist_of` [3; 3; 2; 1; 1]) as Hsub.
  { apply sublist_skip, sublist_cons, sublist_skip, sublist_skip, sublist_nil_l. }
  assert ([3; 2; 1] ≠ []) as Hne by done.
  split; [exact Hsub|]. split; [exact Hne|].
  destruct (group_reused _ _ Hsub Hne) as (idx & idx' & g & ? & ? & ? & ? & _).
  by exists idx, idx', g.
Defined.

(** X15: the enumeration is sound and complete: the results of the
    calculations of a group are exactly the values that can be built from
    the numbers of its tuple, each used once, with the operations that
    [operations] admits. *)
Theorem group_results_reachable (all_numbers : list Z) :
  ∃ idx, Solutions.unique_groups all_numbers = Some idx
    ∧ ∀ key G v, (key, G) ∈ idx →
        (v ∈ result <$> G.(calculations) ↔ reachable key v).
Proof.
  destruct (unique_groups_total all_numbers) as (idx & Hidx & _).
  exists idx. split; [done|]. intros key G v Hin. split.
  - intros (c & -> & Hc)%list_elem_of_fmap. by eapply results_reachable.
  - intros Hr. by eapply reachable_results.
Qed.

(** X16: the values [walk] yields are the values reachable from the
    non-empty sub-multisets of the input; hence the set of results does not
    depend on the order in which the numbers are handed to [Solutions]. *)
Theorem walk_results_order_independent (all_numbers all_numbers' : list Z) :
  all_numbers ≡ₚ all_numbers' →
  ∃ idx idx',
    Solutions.unique_groups all_numbers = Some idx
    ∧ Solutions.unique_groups all_numbers' = Some idx'
    ∧ (∀ v, v ∈ result <$> Solutions.walk idx ↔
            ∃ s, s ≠ [] ∧ s ⊆+ all_numbers ∧ reachable s v)
    ∧ (∀ v, v ∈ result <$> Solutions.walk idx ↔ v ∈ result <$> Solutions.walk idx').
Proof.
  intros Hperm.
  destruct (unique_groups_total all_numbers) as (idx & Hidx & _).
  destruct (unique_groups_total all_numbers') as (idx' & Hidx' & _).
  exists idx, idx'. split_and!; [done|done|intros v; by apply walk_results_reachable|].
  intros v. rewrite (walk_results_reachable _ _ _ Hidx), (walk_results_reachable _ _ _ Hidx').
  by setoid_rewrite Hperm.
Qed.

Lemma walk_results_order_independent_witness :
  [3; 2; 4; 1] ≡ₚ [4; 3; 2; 1]
  ∧ ∃ idx idx',
      Solutions.unique_groups [3; 2; 4; 1] = Some idx
      ∧ Solutions.unique_groups [4; 3; 2; 1] = Some idx'
      ∧ ∀ v, v ∈ result <$> Solutions.walk idx ↔ v ∈ result <$> Solutions.walk idx'.
Proof.
  assert ([3; 2; 4; 1] ≡ₚ [4; 3; 2; 1]) as Hperm by solve_Permutation.
  split; [exact Hperm|].
  destruct (walk_results_order_independent _ _ Hperm) as (idx & idx' & ? & ? & _ & ?).
  by exists idx, idx'.
Defined.

(** X17: if one of the numbers lies between 0 and twice the target, the
    difference [countdown_solver] reports is the least distance from the
    target of any value reachable from a non-empty sub-multiset of the
    numbers; it is attained, and every result it lists is such a value at
    exactly that distance. *)
Theorem countdown_solver_closest (target : Z) (unsorted_numbers : list Z) (n : Z) :
  n ∈ unsorted_numbers → 0 ≤ n ≤ 2 * target →
  ∃ d best,
    countdown_solver target unsorted_numbers = Some (d, best)
    ∧ best ≠ []
    ∧ (∀ s v, s ≠ [] → s ⊆+ unsorted_numbers → reachable s v → d ≤ Z.abs (v - target))
    ∧ (∀ c, c ∈ best →
         Z.abs (result c - target) = d
         ∧ ∃ s, s ≠ [] ∧ s ⊆+ unsorted_numbers ∧ reachable s (result c)).
Proof.
  intros Hn Hrange.
  destruct (unique_groups_total (sorted_reverse unsorted_numbers)) as (idx & Hidx & _).
  assert (Calculation.singleton n ∈ Solutions.walk idx) as Hin.
  { eapply singleton_walked; [done|]. by rewrite sorted_reverse_Permutation. }
  assert (difference target (Calculation.singleton n) ≤ target) as Hle.
  { unfold difference. simpl. lia. }
  eexists _, _. split.
  { unfold countdown_solver, solve. rewrite Hidx. simpl. by rewrite search_spec. }
  split_and!.
  - destruct (least_difference_exact target _ _ Hin Hle) as (c' & Hin' & Hc').
    intros Hnil. exact (filter_nil_not_elem_of _ _ c' Hnil Hc' Hin').
  - intros s v Hne Hsub Hr.
    assert (v ∈ result <$> Solutions.walk idx) as (c & -> & Hc)%list_elem_of_fmap.
    { apply (walk_results_reachable _ _ _ Hidx). exists s. split_and!; [done| |done].
      by rewrite sorted_reverse_Permutation. }
    by apply least_difference_lower.
  - intros c [Hd Hc]%list_elem_of_filter. split; [done|].
    assert (result c ∈ result <$> Solutions.walk idx) as Hv by (by apply list_elem_of_fmap_2).
    apply (walk_results_reachable _ _ _ Hidx) in Hv as (s & ? & Hsub & ?).
    exists s. split_and!; [done| |done]. by rewrite <-(sorted_reverse_Permutation unsorted_numbers).
Qed.

Lemma countdown_solver_closest_witness :
  2 ∈ [2; 2] ∧ 0 ≤ 2 ≤ 2 * 7
  ∧ ∃ d best, countdown_solver 7 [2; 2] = Some (d, best) ∧ best ≠ [].
Proof.
  assert (2 ∈ [2; 2]) as Hin by left.
  assert (0 ≤ 2 ≤ 2 * 7) as Hr by lia.
  split; [exact Hin|]. split; [exact Hr|].
  destruct (countdown_solver_closest 7 [2; 2] 2 Hin Hr) as (d & best & Hs & Hne & _).
  by exists d, best.
Defined.

(** X18: a calculation is flagged as a singleton exactly when it belongs to
    a group of size 1; the expression of any other calculation is
    ["L op R"], where [op] is one of the four symbols and [L], [R] are the
    expressions of two calculations of the sides of a stored pair, the one
    with the larger result first, each in parentheses unless it is a
    singleton. *)
Theorem singleton_flag (all_numbers : list Z) :
  ∃ idx, Solutions.unique_groups all_numbers = Some idx
    ∧ ∀ key G c, (key, G) ∈ idx → c ∈ G.(calculations) →
        (is_singleton c = true ↔ length key = 1%nat)
        ∧ (length key ≠ 1%nat →
             (∃ A B c1 c2 op,
                (A, B) ∈ G.(partitions) ∧ c1 ∈ A.(calculations) ∧ c2 ∈ B.(calculations)
                ∧ op ∈ ["+"; "-"; "x"; "/"]
                ∧ result c2 ≤ result c1
                ∧ expr c = (Calculation.operand c1 ++ " " ++ op ++ " "
                            ++ Calculation.operand c2)%string)
             ∨ (∃ A B c1 c2 op,
                (A, B) ∈ G.(partitions) ∧ c1 ∈ A.(calculations) ∧ c2 ∈ B.(calculations)
                ∧ op ∈ ["+"; "-"; "x"; "/"]
                ∧ result c1 < result c2
                ∧ expr c = (Calculation.operand c2 ++ " " ++ op ++ " "
                            ++ Calculation.operand c1)%string)).
Proof.
  destruct (unique_groups_total all_numbers) as (idx & Hidx & _).
  exists idx. split; [done|]. intros key G c Hin Hc.
  pose proof (group_calculations _ _ _ _ Hidx Hin) as Hcalc.
  unfold Group.perform_calculations in Hcalc. case_decide as Hone.
  - destruct key as [|k [|??]]; try done. simpl in Hcalc. injection Hcalc as Hcalc.
    rewrite <-Hcalc in Hc. apply list_elem_of_singleton in Hc as ->. split; [done|done].
  - injection Hcalc as Hcalc. rewrite <-Hcalc in Hc.
    apply list_elem_of_bind in Hc as ([A B] & Hc & HAB).
    apply list_elem_of_bind in Hc as ([c1 c2] & Hc & [H1 H2]%product_elem).
    split.
    + rewrite (generate_not_singleton _ _ _ Hc). split; [done|]. by intros ?.
    + intros _. destruct (generate_expr _ _ _ Hc) as (op & Hop & Hexpr).
      revert Hexpr. unfold ordered_operands. case_bool_decide; simpl; intros Hexpr.
      * right. exists A, B, c1, c2, op. split_and!; done.
      * left. exists A, B, c1, c2, op. split_and!; [done..|lia|done].
Qed.

(** X19: under [lru_cache], whatever the sequence of calls, [halfbinom]
    returns the values it returns without the cache; the cache never holds
    more than 128 entries; the function is computed at least once per
    distinct pair and at most once per call, and exactly once per distinct
    pair when there are at most 128 distinct pairs. *)
Theorem lru_cache_transparent (calls : list (Z * Z)) :
  let '(c, out) := lru_calls Group.halfbinom lru_empty calls in
  out = (λ '(n, k), Group.halfbinom n k) <$> calls
  ∧ (length (lru_entries c) ≤ 128)%nat
  ∧ (distinct calls ≤ lru_misses c ≤ length calls)%nat
  ∧ ((distinct calls ≤ 128)%nat → lru_misses c = distinct calls).
Proof.
  pose proof (lru_calls_any Group.halfbinom calls) as Hlru.
  destruct (lru_calls Group.halfbinom lru_empty calls) as [c out].
  destruct Hlru as (Hout & Hlen & _ & _ & Hmiss & Hsmall).
  split_and!; [done|done|lia|lia|]. intros Hd. by destruct (Hsmall Hd).
Qed.

(** X20. The command line. Whatever strings [int] accepts, the script
    always prints something, and it prints the usage message exactly when
    one of the arguments 1 to 7 (the target and the six numbers) is missing
    or is not accepted by [int]. *)
Theorem usage_message (int : string → option Z) (argv : list string) :
  (∃ text, main int argv = Some text)
  ∧ (main int argv = Some ("You must provide a target and numbers!" ++ newline)%string
     ↔ ∃ i : nat, (1 ≤ i ≤ 7)%nat ∧ argv !! i ≫= int = None).
Proof.
  rewrite <-read_arguments_None. unfold main.
  destruct (read_arguments int argv) as [[target nums]|]; [|by split; [eauto|]].
  destruct (countdown_solver_total target nums) as [[diff results] ->]. simpl.
  split; [by eauto|]. split; [|done].
  destruct (output_head target diff results) as [s ->]. by intros [=].
Qed.

(** X21. The printed text depends only on the target and on the six
    numbers as a collection: the program name, any argument after the
    seventh, and the order in which the six numbers are given do not change
    it. *)
Theorem main_arguments (int : string → option Z)
    (prog prog' t : string) (nums nums' rest rest' : list string) :
  length nums = 6%nat → nums ≡ₚ nums' →
  main int (prog :: t :: nums ++ rest) = main int (prog' :: t :: nums' ++ rest').
Proof.
  intros Hlen Hperm. unfold main.
  rewrite !read_arguments_six by (by rewrite <-?Hperm).
  destruct (int t) as [target|]; simpl; [|done].
  pose proof (mapM_Permutation int _ _ Hperm) as Hm.
  destruct (mapM int nums) as [k|], (mapM int nums') as [k'|]; simpl; try done.
  unfold countdown_solver. by rewrite (sorted_reverse_perm _ _ Hm).
Qed.

Lemma main_arguments_witness :
  length ["75"; "50"; "2"; "3"; "8"; "7"] = 6%nat
  ∧ ["75"; "50"; "2"; "3"; "8"; "7"] ≡ₚ ["2"; "75"; "3"; "50"; "7"; "8"]
  ∧ main (λ s, Z.of_int <$> NilZero.int_of_string s)
      ["countdown_solver.py"; "812"; "75"; "50"; "2"; "3"; "8"; "7"]
    = main (λ s, Z.of_int <$> NilZero.int_of_string s)
      ["./countdown_solver.py"; "812"; "2"; "75"; "3"; "50"; "7"; "8"; "extra"].
Proof.
  assert (["75"; "50"; "2"; "3"; "8"; "7"] ≡ₚ ["2"; "75"; "3"; "50"; "7"; "8"]) as Hperm.
  { apply (bool_decide_unpack _). by vm_compute. }
  split; [done|]. split; [done|].
  exact (main_arguments _ "countdown_solver.py" "./countdown_solver.py" "812"
           ["75"; "50"; "2"; "3"; "8"; "7"] ["2"; "75"; "3"; "50"; "7"; "8"]
           [] ["extra"] eq_refl Hperm).
Defined.
